(** * goimghash: the DoubleGradient perceptual hash and the batch
    similarity grouping, embedded from the Go sources.

    - [double_gradient.go]: [nextMultipleOf2], [doubleGradientHashBits],
      [bitsToBytes], [DoubleGradientHash], [ToBase64];
    - the [batch] command: the grouping loop of [findSimilarImages].

    Go's [int] and [uint] are 64-bit; they are integers of [Z] here and every
    arithmetic operation writes its wrap-around out.  A run-time panic (index
    out of range, a length given to [make] that is negative or past the
    allocator's limit, a bad slice bound) is the result [None]. *)

From Stdlib Require Import ZArith Lia Ascii.
From stdpp Require Import base option list list_numbers gmap strings sorting.

Local Open Scope Z_scope.

(** ** Machine integers *)

Module GoInt.

Definition int_min : Z := - 2 ^ 63.
Definition int_max : Z := 2 ^ 63 - 1.

(** The conversions [uint(x)], [int(x)] and [uint8(x)] (which is [byte(x)]). *)
Definition to_uint (z : Z) : Z := z mod 2 ^ 64.
Definition to_int (z : Z) : Z := (z + 2 ^ 63) mod 2 ^ 64 - 2 ^ 63.
Definition to_uint8 (z : Z) : Z := z mod 2 ^ 8.

(** Arithmetic on [int]; [/] truncates toward zero and [%] takes the sign of
    the dividend. *)
Definition add (a b : Z) : Z := to_int (a + b).
Definition sub (a b : Z) : Z := to_int (a - b).
Definition mul (a b : Z) : Z := to_int (a * b).
Definition div (a b : Z) : Z := to_int (Z.quot a b).
Definition rem (a b : Z) : Z := to_int (Z.rem a b).

(** Arithmetic on [uint] and shifts on [uint64]. *)
Definition uadd (a b : Z) : Z := to_uint (a + b).
Definition umul (a b : Z) : Z := to_uint (a * b).
Definition shl64 (a n : Z) : Z := Z.shiftl a n mod 2 ^ 64.
Definition shr64 (a n : Z) : Z := Z.shiftr a n.

Definition in_int (z : Z) : Prop := int_min <= z <= int_max.

End GoInt.

(** ** Slices and counted loops *)

(** [s[i]] for an [int] index: out of range panics. *)
Definition index {A} (s : list A) (i : Z) : option A :=
  if decide (0 <= i) then s !! Z.to_nat i else None.

(** [s[i] = v]: out of range panics. *)
Definition store {A} (s : list A) (i : Z) (v : A) : option (list A) :=
  if decide (0 <= i < Z.of_nat (length s)) then Some (<[Z.to_nat i := v]> s)
  else None.

(** [maxAlloc] of Go's runtime, in bytes, on a 64-bit platform with 48 bits
    of heap address: the most that one allocation may ask for. *)
Definition maxAlloc : Z := 2 ^ 48.

(** [make([]T, n)] and [make([]T, 0, n)] for an element type of [elemSize]
    bytes.  As in [runtime.makeslice], they panic on a negative [n] and on a
    size of more than [maxAlloc] bytes.  An allocation that passes this check
    is served: how much memory the machine has is not part of the model. *)
Definition make {A} (elemSize : Z) (zero : A) (n : Z) : option (list A) :=
  if decide (0 <= n /\ elemSize * n <= maxAlloc)
  then Some (replicate (Z.to_nat n) zero) else None.

Definition make_cap {A} (elemSize : Z) (n : Z) : option (list A) :=
  if decide (0 <= n /\ elemSize * n <= maxAlloc) then Some [] else None.

(** The body [f] run for each counter value of [l] in turn, threading the
    loop's variables [s]; a panic in the body ends the run. *)
Fixpoint run_loop {S} (f : Z -> S -> option S) (l : list Z) (s : S) : option S :=
  match l with
  | [] => Some s
  | i :: l' => match f i s with
               | Some s' => run_loop f l' s'
               | None => None
               end
  end.

(** [for i := lo; i < hi; i++ { f }]. *)
Definition for_range {S} (lo hi : Z) (f : Z -> S -> option S) (s : S) : option S :=
  run_loop f (seqZ lo (hi - lo)) s.

(** ** double_gradient.go *)

(** [nextMultipleOf2(x uint) uint]. *)
Definition nextMultipleOf2 (x : Z) : Z :=
  if decide (x mod 2 = 0) then x else GoInt.uadd x 1.

(** [doubleGradientHashBits(pixels []uint8, width, height int) []bool]. *)
Definition doubleGradientHashBits (pixels : list Z) (width height : Z)
  : option (list bool) :=
  let rowstride := width in
  let totalBits := GoInt.add (GoInt.mul width height) (GoInt.mul width height) in
  hashBits ← make_cap 1 totalBits;
  hashBits ← for_range 0 height (fun y hashBits =>
    let rowStart := GoInt.mul y rowstride in
    for_range 1 width (fun x hashBits =>
      current ← index pixels (GoInt.add rowStart x);
      previous ← index pixels (GoInt.sub (GoInt.add rowStart x) 1);
      Some (hashBits ++ [bool_decide (previous < current)])) hashBits) hashBits;
  for_range 0 width (fun x hashBits =>
    for_range 1 height (fun y hashBits =>
      current ← index pixels (GoInt.add (GoInt.mul y rowstride) x);
      previous ← index pixels (GoInt.add (GoInt.mul (GoInt.sub y 1) rowstride) x);
      Some (hashBits ++ [bool_decide (previous < current)])) hashBits) hashBits.

(** [bitsToBytes(bits []bool) []uint64]: one turn of the loop over [bits],
    on the variables [result], [currentWord] and [bitPos]. *)
Definition bitsToBytes_step (st : list Z * Z * Z) (bit : bool) : list Z * Z * Z :=
  let '(result, currentWord, bitPos) := st in
  let currentWord :=
    if bit then Z.lor currentWord (GoInt.shl64 1 bitPos) else currentWord in
  let bitPos := GoInt.uadd bitPos 1 in
  if decide (64 <= bitPos) then (result ++ [currentWord], 0, 0)
  else (result, currentWord, bitPos).

Definition bitsToBytes (bits : list bool) : list Z :=
  let '(result, currentWord, bitPos) := foldl bitsToBytes_step ([], 0, 0) bits in
  if decide (0 < bitPos) then result ++ [currentWord] else result.

(** What the loop of [bitsToBytes] has built after the bits [bs]: [bitPos]
    bits of [currentWord] are in use and the words before it are full. *)
Record packed (bs : list bool) (st : list Z * Z * Z) : Prop := mkPacked {
  packed_pos : 0 <= st.2 < 64;
  packed_len : Z.of_nat (length bs) = 64 * Z.of_nat (length st.1.1) + st.2;
  packed_high : forall p, st.2 <= p -> Z.testbit st.1.2 p = false;
  packed_bit : forall k p b,
    (p < 64)%nat -> bs !! (64 * k + p)%nat = Some b ->
    Z.testbit (nth k (st.1.1 ++ [st.1.2]) 0) (Z.of_nat p) = b
}.

(** Modelled from the spec: the declarations of [Kind] and [ExtImageHash] and
    the constructor [NewExtImageHash] are not among the sources.  The spec's
    HashKind lists the algorithms, and its HashValue is the payload words, the
    kind and the bit count; the field names are the ones [ToBase64] reads. *)
Inductive Kind : Type := AHash | PHash | DHash | WHash | DGHash.

Record ExtImageHash : Type := mkExtImageHash {
  hash : list Z;
  kind : Kind;
  bits : Z
}.

Definition NewExtImageHash (hash : list Z) (kind : Kind) (bits : Z) : ExtImageHash :=
  mkExtImageHash hash kind bits.

(** Go's [error] values, by their message; [nil] is [None]. *)
Definition error : Type := string.

(** The image values come from Go's [image] package and the resampling from
    [github.com/nfnt/resize], a Lanczos filter in floating point; neither is
    part of the repository.  [DoubleGradientHash] uses them through these
    operations, none of which returns an [error]:
    - [Dx img], [Dy img]: [img.Bounds().Dx()] and [img.Bounds().Dy()];
    - [At img x y]: [img.At(x, y)];
    - [NewGray img]: [image.NewGray(img.Bounds())];
    - [Set_ g x y c]: the image [g] after [g.Set(x, y, c)];
    - [Resize w h g]: [resize.Resize(w, h, g, resize.Lanczos3)];
    - [RGBA_r c]: the first result of [c.RGBA()], a [uint32]. *)
Class Imaging (Image Color : Type) : Type := {
  Dx : Image -> Z;
  Dy : Image -> Z;
  At : Image -> Z -> Z -> Color;
  NewGray : Image -> Image;
  Set_ : Image -> Z -> Z -> Color -> Image;
  Resize : Z -> Z -> Image -> Image;
  RGBA_r : Color -> Z
}.

Section Sampling.

Context {Image Color : Type} `{!Imaging Image Color}.

(** [DoubleGradientHash(img, width, height)], returning the pointer to the
    hash and the [error]. *)
Definition DoubleGradientHash (img : Image) (width height : Z)
  : option (ExtImageHash * option error) :=
  let width := GoInt.to_int (nextMultipleOf2 (GoInt.to_uint width)) in
  let height := GoInt.to_int (nextMultipleOf2 (GoInt.to_uint height)) in
  let resizeWidth := GoInt.add (GoInt.div width 2) 1 in
  let resizeHeight := GoInt.add (GoInt.div height 2) 1 in
  let grayImg := NewGray img in
  grayImg ← for_range 0 (Dy img) (fun y grayImg =>
    for_range 0 (Dx img) (fun x grayImg =>
      Some (Set_ grayImg x y (At img x y))) grayImg) grayImg;
  let resized :=
    Resize (GoInt.to_uint resizeWidth) (GoInt.to_uint resizeHeight) grayImg in
  pixels ← make 1 0 (GoInt.mul resizeWidth resizeHeight);
  pixels ← for_range 0 resizeHeight (fun y pixels =>
    for_range 0 resizeWidth (fun x pixels =>
      let idx := GoInt.add (GoInt.mul y resizeWidth) x in
      let pixel := At resized x y in
      let r := RGBA_r pixel in
      store pixels idx (GoInt.to_uint8 (Z.shiftr r 8))) pixels) pixels;
  hashBits ← doubleGradientHashBits pixels resizeWidth resizeHeight;
  let hashBytes := bitsToBytes hashBits in
  let totalBits := Z.of_nat (length hashBits) in
  Some (NewExtImageHash hashBytes DGHash totalBits, None).

End Sampling.

(** A concrete backend on which the model runs: gray rasters given by their
    size and a sample function.  As in Go, a read outside the bounds gives
    black, a write outside the bounds is dropped, a gray level [v] has the
    red channel [v * 0x101], and [resize.Resize] hands back an image that has
    no pixels as it is.  For an image with pixels the nearest source sample
    stands in for the Lanczos filter. *)
Record raster : Type := mkRaster {
  r_dx : Z;
  r_dy : Z;
  r_pix : Z -> Z -> Z
}.

Definition raster_in (img : raster) (x y : Z) : bool :=
  bool_decide (0 <= x < r_dx img /\ 0 <= y < r_dy img).

Definition raster_at (img : raster) (x y : Z) : Z :=
  if raster_in img x y then r_pix img x y else 0.

Definition raster_set (img : raster) (x y v : Z) : raster :=
  if raster_in img x y
  then mkRaster (r_dx img) (r_dy img)
         (fun x' y' => if bool_decide (x' = x /\ y' = y) then v else r_pix img x' y')
  else img.

Definition raster_resize (w h : Z) (img : raster) : raster :=
  if bool_decide (r_dx img <= 0 \/ r_dy img <= 0) then img
  else mkRaster w h (fun x y => r_pix img (x * r_dx img / w) (y * r_dy img / h)).

#[export] Instance raster_imaging : Imaging raster Z := {
  Dx := r_dx;
  Dy := r_dy;
  At := raster_at;
  NewGray img := mkRaster (r_dx img) (r_dy img) (fun _ _ => 0);
  Set_ := raster_set;
  Resize := raster_resize;
  RGBA_r v := v * 257
}.

(** An image without pixels, and a 4 x 4 image brighter to the right and
    darker toward the bottom. *)
Definition empty_image : raster := mkRaster 0 0 (fun _ _ => 0).
Definition ramp_image : raster := mkRaster 4 4 (fun x y => 100 + 10 * x - 20 * y).

(** ** Base64 *)

(** [base64.RawStdEncoding.EncodeToString] of Go's standard library: the
    alphabet of RFC 4648, three bytes to four characters, most significant six
    bits first, and no padding after a final group of one or two bytes. *)
Definition encodeStd : list ascii :=
  String.list_ascii_of_string
    "ABCDEFGHIJKLMNOPQRSTUVWXYZabcdefghijklmnopqrstuvwxyz0123456789+/".

Definition sextet (val shift : Z) : ascii :=
  nth (Z.to_nat (Z.land (Z.shiftr val shift) 63)) encodeStd "A"%char.

Fixpoint EncodeToString (src : list Z) : string :=
  match src with
  | [] => EmptyString
  | [a] =>
      let val := Z.shiftl a 16 in
      String (sextet val 18) (String (sextet val 12) EmptyString)
  | [a; b] =>
      let val := Z.lor (Z.shiftl a 16) (Z.shiftl b 8) in
      String (sextet val 18) (String (sextet val 12)
        (String (sextet val 6) EmptyString))
  | a :: b :: c :: rest =>
      let val := Z.lor (Z.lor (Z.shiftl a 16) (Z.shiftl b 8)) c in
      String (sextet val 18) (String (sextet val 12)
        (String (sextet val 6) (String (sextet val 0) (EncodeToString rest))))
  end.

(** [s[:n]]: a bound that is negative or past the slice panics.  (Go allows a
    bound up to the capacity; in [ToBase64] the bound never passes the length
    of a non-empty [hashBytes], and an empty one has capacity 0.) *)
Definition slice_to {A} (s : list A) (n : Z) : option (list A) :=
  if decide (0 <= n <= Z.of_nat (length s)) then Some (take (Z.to_nat n) s)
  else None.

(** The serialization loop of [ToBase64]: the eight bytes of each word, least
    significant first. *)
Definition hashWord_bytes (hashBytes : list Z) (hashWord : Z) : list Z :=
  foldl (fun hashBytes i =>
           hashBytes ++
           [GoInt.to_uint8 (Z.land (GoInt.shr64 hashWord (GoInt.umul i 8)) 255)])
        hashBytes (seqZ 0 8).

(** [func (h *ExtImageHash) ToBase64() string]. *)
Definition ToBase64 (h : ExtImageHash) : option string :=
  let hashBytes := foldl hashWord_bytes [] (hash h) in
  hashBytes ←
    (if decide (bits h < GoInt.mul (Z.of_nat (length hashBytes)) 8) then
       let fullBytes := GoInt.div (bits h) 8 in
       let fullBytes :=
         if decide (GoInt.rem (bits h) 8 ≠ 0) then GoInt.add fullBytes 1
         else fullBytes in
       slice_to hashBytes fullBytes
     else Some hashBytes);
  Some (EncodeToString hashBytes).

(** ** The batch command: grouping similar images *)

Section Grouping.

(** [goimagehash.ImageHash], [goimagehash.ExtImageHash] and their [Distance]
    methods are used by [findSimilarImages] through pointers; the methods are
    not among the sources, so they are parameters: each returns the distance
    and an [error].  [threshold] is the package variable set by the
    [--threshold] flag. *)
Context {HashPtr ExtHashPtr : Type}.
Variable Hash_Distance : HashPtr -> HashPtr -> Z * option error.
Variable ExtHash_Distance : ExtHashPtr -> ExtHashPtr -> Z * option error.
Variable threshold : Z.

(** The local [type ImageInfo struct] of [findSimilarImages]. *)
Record ImageInfo : Type := mkImageInfo {
  Path : string;
  Hash : HashPtr;
  ExtHash : ExtHashPtr;
  IsExt : bool
}.

(** [for i, img := range images]: the index with the element. *)
Definition range {A} (s : list A) : list (nat * A) := imap pair s.

(** [processed[i]] on a [map[int]bool]: [false] for a key that is absent. *)
Definition processed_at (processed : gmap nat bool) (i : nat) : bool :=
  default false (processed !! i).

(** The call that sets [distance, err]: the method of the seed's kind. *)
Definition Distance (img1 img2 : ImageInfo) : Z * option error :=
  if IsExt img1 then ExtHash_Distance (ExtHash img1) (ExtHash img2)
  else Hash_Distance (Hash img1) (Hash img2).

(** One turn of the inner loop [for j, img2 := range images], for the seed
    [img1] at index [i], on the variables [group] and [processed].  A member
    of a group is kept with the index it was read at, so that the theorems
    can tell two equal records of the input apart; [findSimilarGroups]
    forgets the index. *)
Definition scan_step (i : nat) (img1 : ImageInfo)
    (st : list (nat * ImageInfo) * gmap nat bool) (jx : nat * ImageInfo)
  : list (nat * ImageInfo) * gmap nat bool :=
  let '(group, processed) := st in
  let '(j, img2) := jx in
  if bool_decide (i = j) || processed_at processed j then st
  else if negb (eqb (IsExt img1) (IsExt img2)) then st
  else
    let '(distance, err) := Distance img1 img2 in
    match err with
    | Some _ => st
    | None =>
        if decide (distance <= threshold)
        then (group ++ [(j, img2)], <[j := true]> processed)
        else st
    end.

(** One turn of the outer loop [for i, img1 := range images], on the variables
    [groups] and [processed]. *)
Definition seed_step (images : list ImageInfo)
    (st : list (list (nat * ImageInfo)) * gmap nat bool) (ix : nat * ImageInfo)
  : list (list (nat * ImageInfo)) * gmap nat bool :=
  let '(groups, processed) := st in
  let '(i, img1) := ix in
  if processed_at processed i then st
  else
    let group := [(i, img1)] in
    let processed := <[i := true]> processed in
    let '(group, processed) :=
      foldl (scan_step i img1) (group, processed) (range images) in
    if decide (1 < length group)%nat then (groups ++ [group], processed)
    else (groups, processed).

(** The grouping part of [findSimilarImages]: from [var groups] to the end of
    the outer loop. *)
Definition group_loop (images : list ImageInfo)
  : list (list (nat * ImageInfo)) * gmap nat bool :=
  foldl (seed_step images) ([], ∅) (range images).

Definition findSimilarIndexed (images : list ImageInfo) : list (list (nat * ImageInfo)) :=
  (group_loop images).1.

Definition findSimilarGroups (images : list ImageInfo) : list (list ImageInfo) :=
  map (map snd) (findSimilarIndexed images).

(** Step 3 of the clustering policy, on a seed [img1] and a record [img2]:
    the two are of the same kind and the distance from the seed is at most
    the threshold.  [similarb] decides it. *)
Definition similar (img1 img2 : ImageInfo) : Prop :=
  IsExt img1 = IsExt img2 /\
  exists distance, Distance img1 img2 = (distance, None) /\ distance <= threshold.

Definition similarb (img1 img2 : ImageInfo) : bool :=
  eqb (IsExt img1) (IsExt img2) &&
  match Distance img1 img2 with
  | (distance, None) => bool_decide (distance <= threshold)
  | (_, Some _) => false
  end.

(** The records that the seed at index [i] takes when [processed] holds the
    consumed markers: the other unconsumed records that are similar to it. *)
Definition joins (i : nat) (img1 : ImageInfo) (processed : gmap nat bool)
    (jx : nat * ImageInfo) : bool :=
  negb (bool_decide (i = jx.1)) && negb (processed_at processed jx.1) &&
  similarb img1 jx.2.

(** The records that a seed read at [i] takes, told from the groups made
    [earlier]: the later records that are in none of those groups and are
    similar to the seed. *)
Definition takes (i : nat) (seed : ImageInfo)
    (earlier : list (list (nat * ImageInfo))) (jx : nat * ImageInfo) : bool :=
  (i <? jx.1)%nat && negb (bool_decide (jx.1 ∈ (concat earlier).*1)) &&
  similarb seed jx.2.

(** A group as the outer loop appends it after the groups [earlier]: a seed
    and, in input order, all that it takes, at least one record. *)
Definition collected (images : list ImageInfo)
    (earlier : list (list (nat * ImageInfo))) (g : list (nat * ImageInfo)) : Prop :=
  exists i seed,
    images !! i = Some seed /\
    g = (i, seed) :: List.filter (takes i seed earlier) (range images) /\
    (1 < length g)%nat.

(** The variables [groups] and [processed] after the turns for the indices
    below [n]: the markers are set for those indices and for the members of
    the groups, and for nothing else. *)
Record seeded (images : list ImageInfo) (n : nat)
    (st : list (list (nat * ImageInfo)) * gmap nat bool) : Prop := mkSeeded {
  seeded_marks : forall k,
    processed_at st.2 k = true <-> (k < n)%nat \/ k ∈ (concat st.1).*1;
  seeded_groups : forall m g,
    st.1 !! m = Some g -> collected images (take m st.1) g;
  seeded_NoDup : NoDup (concat st.1).*1
}.

(** The same loops as a machine that takes one step per turn: where the
    program stands, with the variables in scope there. *)
Inductive control : Type :=
| AtOuter (i : nat)
| AtInner (i : nat) (img1 : ImageInfo) (group : list (nat * ImageInfo)) (j : nat)
| AtReturn.

Record machine : Type := mkMachine {
  m_groups : list (list (nat * ImageInfo));
  m_processed : gmap nat bool;
  m_control : control
}.

Inductive step (images : list ImageInfo) : machine -> machine -> Prop :=
| step_outer_end groups processed i :
    images !! i = None ->
    step images (mkMachine groups processed (AtOuter i))
                (mkMachine groups processed AtReturn)
| step_outer_continue groups processed i img1 :
    images !! i = Some img1 ->
    processed_at processed i = true ->
    step images (mkMachine groups processed (AtOuter i))
                (mkMachine groups processed (AtOuter (S i)))
| step_outer_seed groups processed i img1 :
    images !! i = Some img1 ->
    processed_at processed i = false ->
    step images (mkMachine groups processed (AtOuter i))
                (mkMachine groups (<[i := true]> processed)
                           (AtInner i img1 [(i, img1)] 0))
| step_inner_end groups processed i img1 group j :
    images !! j = None ->
    step images (mkMachine groups processed (AtInner i img1 group j))
                (mkMachine (if decide (1 < length group)%nat
                            then groups ++ [group] else groups)
                           processed (AtOuter (S i)))
| step_inner_continue groups processed i img1 group j img2 :
    images !! j = Some img2 ->
    i = j \/ processed_at processed j = true ->
    step images (mkMachine groups processed (AtInner i img1 group j))
                (mkMachine groups processed (AtInner i img1 group (S j)))
| step_inner_kind groups processed i img1 group j img2 :
    images !! j = Some img2 ->
    i <> j -> processed_at processed j = false ->
    IsExt img1 <> IsExt img2 ->
    step images (mkMachine groups processed (AtInner i img1 group j))
                (mkMachine groups processed (AtInner i img1 group (S j)))
| step_inner_err groups processed i img1 group j img2 distance e :
    images !! j = Some img2 ->
    i <> j -> processed_at processed j = false ->
    IsExt img1 = IsExt img2 ->
    Distance img1 img2 = (distance, Some e) ->
    step images (mkMachine groups processed (AtInner i img1 group j))
                (mkMachine groups processed (AtInner i img1 group (S j)))
| step_inner_far groups processed i img1 group j img2 distance :
    images !! j = Some img2 ->
    i <> j -> processed_at processed j = false ->
    IsExt img1 = IsExt img2 ->
    Distance img1 img2 = (distance, None) ->
    threshold < distance ->
    step images (mkMachine groups processed (AtInner i img1 group j))
                (mkMachine groups processed (AtInner i img1 group (S j)))
| step_inner_add groups processed i img1 group j img2 distance :
    images !! j = Some img2 ->
    i <> j -> processed_at processed j = false ->
    IsExt img1 = IsExt img2 ->
    Distance img1 img2 = (distance, None) ->
    distance <= threshold ->
    step images (mkMachine groups processed (AtInner i img1 group j))
                (mkMachine groups (<[j := true]> processed)
                           (AtInner i img1 (group ++ [(j, img2)]) (S j))).

(** A run of [findSimilarImages] over [images] that reaches the end of the
    loops with the groups [out]. *)
Definition returns (images : list ImageInfo) (out : list (list ImageInfo)) : Prop :=
  exists groups processed,
    rtc (step images) (mkMachine [] ∅ (AtOuter 0))
                      (mkMachine groups processed AtReturn) /\
    out = map (map snd) groups.

End Grouping.

(** ** Eight-bit hashes for examples *)

(** A [Distance] that never fails: the Hamming distance of two 8-bit hashes. *)
Definition popcount8 (w : Z) : Z :=
  foldr (fun i n => (if Z.testbit w i then 1 else 0) + n) 0 (seqZ 0 8).

Definition Hamming8 (a b : Z) : Z * option error :=
  (popcount8 (Z.lxor a b), None).

Definition record8 (path : string) (isExt : bool) (h : Z) : @ImageInfo Z Z :=
  mkImageInfo path h h isExt.

(** Three hashes at distances 3, 3 and 6. *)
Definition A8 : @ImageInfo Z Z := record8 "A" false 0.
Definition B8 : @ImageInfo Z Z := record8 "B" false 7.
Definition C8 : @ImageInfo Z Z := record8 "C" false 63.

(** Two extended hashes at distance 1. *)
Definition X8 : @ImageInfo Z Z := record8 "X" true 1.
Definition Y8 : @ImageInfo Z Z := record8 "Y" true 3.

(** ** The gradient signature as the specification words it *)

(** An intensity grid of [sw] columns and [sh] rows, as its rows; the slice
    [pixels] of the program is the grid in row-major order, [concat grid]. *)
Definition is_grid (grid : list (list Z)) (sw sh : Z) : Prop :=
  Z.of_nat (length grid) = sh /\
  Forall (fun row => Z.of_nat (length row) = sw) grid.

(** [grid[y][x]]. *)
Definition grid_at (grid : list (list Z)) (y x : Z) : Z :=
  default 0 (row ← grid !! Z.to_nat y; row !! Z.to_nat x).

(** Horizontal pass: for each row [y] in [[0, sh)], for each column [x] in
    [[1, sw)], the bit [grid[y][x] > grid[y][x-1]]; [g y x] is [grid[y][x]]. *)
Definition horizontal_pass (g : Z -> Z -> Z) (sw sh : Z) : list bool :=
  y ← seqZ 0 sh; x ← seqZ 1 (sw - 1); [bool_decide (g y x > g y (x - 1))].

(** Vertical pass: for each column [x] in [[0, sw)], for each row [y] in
    [[1, sh)], the bit [grid[y][x] > grid[y-1][x]]. *)
Definition vertical_pass (g : Z -> Z -> Z) (sw sh : Z) : list bool :=
  x ← seqZ 0 sw; y ← seqZ 1 (sh - 1); [bool_decide (g y x > g (y - 1) x)].

(** All horizontal-pass bits first, then all vertical-pass bits. *)
Definition gradient_reference (g : Z -> Z -> Z) (sw sh : Z) : list bool :=
  horizontal_pass g sw sh ++ vertical_pass g sw sh.

(** The payload as bytes: the eight bytes of each word in turn, the least
    significant byte of a word first. *)
Definition payload_bytes (payload : list Z) : list Z :=
  w ← payload; (fun i => (w / 2 ^ (8 * i)) mod 256) <$> seqZ 0 8.

(** [r] is [n] rounded up to the nearest even integer. *)
Definition rounded_up_to_even (n r : Z) : Prop :=
  Z.Even r /\ n <= r /\ forall e, Z.Even e -> n <= e -> r <= e.

(** ** More of double_gradient.go *)



(** [DoubleGradientHashToBase64(img, width, height)], returning the string and
    the [error]. *)
Definition DoubleGradientHashToBase64 {Image Color : Type}
    `{!Imaging Image Color} (img : Image) (width height : Z)
  : option (string * option error) :=
  '(hash, err) ← DoubleGradientHash img width height;
  match err with
  | Some e => Some (EmptyString, Some e)
  | None => s ← ToBase64 hash; Some (s, None)
  end.

(** Reading a payload back: bit [i] of [n] bits is bit [i mod 64] of word
    [i / 64]. *)
Definition unpack (n : nat) (payload : list Z) : list bool :=
  (fun i => Z.testbit (nth (i / 64) payload 0) (Z.of_nat (i mod 64))) <$> seq 0 n.


(** ** More of the batch command *)

(** The position of the seed of a group: that of its first member. *)
Definition seed_position {A} (g : list (nat * A)) : nat :=
  match g with
  | [] => 0%nat
  | (i, _) :: _ => i
  end.

(** [for _, x := range l] with a body that may panic. *)
Fixpoint each {A St} (f : St -> A -> option St) (s : St) (l : list A) : option St :=
  match l with
  | [] => Some s
  | x :: l' => match f s x with
               | Some s' => each f s' l'
               | None => None
               end
  end.

Section Batch.

(** What the commands take from outside: [loadImage] opens and decodes a
    file, returning either the image ([inl]) or an error ([inr]), as its two
    return statements do; [goimagehash.AverageHash], [DifferenceHash] and
    [PerceptionHash] return a pointer to an [ImageHash], an [option] with
    [nil] as [None], and an [error].  [hashType] is the package variable set
    by the [--hash-type] flag. *)
Context {Image Color : Type} `{!Imaging Image Color} {ImageHash : Type}.
Variable loadImage : string -> Image + error.
Variable AverageHash : Image -> option ImageHash * option error.
Variable DifferenceHash : Image -> option ImageHash * option error.
Variable PerceptionHash : Image -> option ImageHash * option error.
Variable Hash_Distance :
  option ImageHash -> option ImageHash -> Z * option error.
Variable ExtHash_Distance :
  option ExtImageHash -> option ExtImageHash -> Z * option error.
Variable hashType : string.
Variable threshold : Z.

(** [computeHash(img)] of the compare command. *)
Definition computeHash (img : Image) : option ImageHash * option error :=
  if decide (hashType ∈ ["average"; "ahash"]) then AverageHash img
  else if decide (hashType ∈ ["difference"; "dhash"]) then DifferenceHash img
  else if decide (hashType ∈ ["perception"; "phash"]) then PerceptionHash img
  else (None, Some ("unsupported hash type: " +:+ hashType)).

(** One turn of the first loop of [findSimilarImages], on the variable
    [images]; [continue] leaves it as it is. *)
Definition collect_step
    (images : list (@ImageInfo (option ImageHash) (option ExtImageHash)))
    (imagePath : string)
  : option (list (@ImageInfo (option ImageHash) (option ExtImageHash))) :=
  match loadImage imagePath with
  | inr _ => Some images
  | inl img =>
      if decide (hashType ∈ ["double-gradient"; "dgrad"]) then
        '(extHash, err) ← DoubleGradientHash img 8 8;
        match err with
        | Some _ => Some images
        | None =>
            Some (images ++ [mkImageInfo imagePath None (Some extHash) true])
        end
      else
        let '(hash, err) := computeHash img in
        match err with
        | Some _ => Some images
        | None => Some (images ++ [mkImageInfo imagePath hash None false])
        end
  end.

(** [findSimilarImages(imageFiles)] up to the groups it reports: the loop that
    hashes the files, then the grouping loops. *)
Definition collectImages (imageFiles : list string)
  : option (list (@ImageInfo (option ImageHash) (option ExtImageHash))) :=
  each collect_step [] imageFiles.

Definition findSimilarImages (imageFiles : list string)
  : option (list (list (@ImageInfo (option ImageHash) (option ExtImageHash)))) :=
  images ← collectImages imageFiles;
  Some (findSimilarGroups Hash_Distance ExtHash_Distance threshold images).

(** The files that the first loop keeps: those that load and hash without an
    error. *)
Definition hashes (imagePath : string) : bool :=
  match loadImage imagePath with
  | inl img =>
      bool_decide (hashType ∈ ["double-gradient"; "dgrad"]) ||
      bool_decide ((computeHash img).2 = None)
  | inr _ => false
  end.

(** A record as the first loop builds it: only the pointer of its kind is
    set, and the kind follows the hash type. *)
Definition built
    (r : @ImageInfo (option ImageHash) (option ExtImageHash)) : Prop :=
  IsExt r = bool_decide (hashType ∈ ["double-gradient"; "dgrad"]) /\
  (if IsExt r then Hash r = None /\ ExtHash r <> None else ExtHash r = None).

End Batch.

(** * Theorems *)

(** ** The definitions on small inputs *)

Example doubleGradientHashBits_2x2 :
  doubleGradientHashBits [1; 2; 2; 1] 2 2 = Some [true; false; true; false].
Proof. reflexivity. Qed.

Example bitsToBytes_lsb_first : bitsToBytes [true; false; true; true] = [13].
Proof. reflexivity. Qed.

Example EncodeToString_Man : EncodeToString [77; 97; 110] = "TWFu".
Proof. reflexivity. Qed.

Example EncodeToString_Ma : EncodeToString [77; 97] = "TWE".
Proof. reflexivity. Qed.

Example ToBase64_12_bits :
  ToBase64 (NewExtImageHash [3085] DGHash 12) = Some "DQw".
Proof. reflexivity. Qed.

(** ** Machine integers in range *)

Lemma to_int_small z : GoInt.in_int z -> GoInt.to_int z = z.
Proof.
  unfold GoInt.in_int, GoInt.int_min, GoInt.int_max, GoInt.to_int. intros Hz.
  rewrite Z.mod_small by lia. lia.
Qed.

Lemma to_uint_small z : 0 <= z < 2 ^ 64 -> GoInt.to_uint z = z.
Proof. unfold GoInt.to_uint. intros Hz. now rewrite Z.mod_small. Qed.

Lemma add_small a b : GoInt.in_int (a + b) -> GoInt.add a b = a + b.
Proof. apply to_int_small. Qed.

Lemma sub_small a b : GoInt.in_int (a - b) -> GoInt.sub a b = a - b.
Proof. apply to_int_small. Qed.

Lemma mul_small a b : GoInt.in_int (a * b) -> GoInt.mul a b = a * b.
Proof. apply to_int_small. Qed.

Lemma uadd_small a b : 0 <= a + b < 2 ^ 64 -> GoInt.uadd a b = a + b.
Proof. apply to_uint_small. Qed.

Lemma shl64_one n : 0 <= n < 64 -> GoInt.shl64 1 n = 2 ^ n.
Proof.
  intros Hn. unfold GoInt.shl64. rewrite Z.shiftl_1_l.
  apply Z.mod_small. split; [apply Z.pow_nonneg; lia|].
  apply Z.pow_lt_mono_r; lia.
Qed.

(** ** Bit packing: [bitsToBytes] *)

Lemma packed_nil : packed [] ([], 0, 0).
Proof.
  split; simpl; try lia.
  - intros p _. apply Z.testbit_0_l.
  - intros k p b _ H. discriminate.
Qed.

Lemma packed_step bs st bit :
  packed bs st -> packed (bs ++ [bit]) (bitsToBytes_step st bit).
Proof.
  destruct st as [[result cw] bp]. intros [Hpos Hlen Hhigh Hbit]. simpl in *.
  unfold bitsToBytes_step.
  rewrite uadd_small by lia.
  set (cw' := if bit then Z.lor cw (GoInt.shl64 1 bp) else cw).
  assert (Hcw_low : forall p, 0 <= p < bp -> Z.testbit cw' p = Z.testbit cw p).
  { intros p Hp. subst cw'. destruct bit; [|done].
    rewrite shl64_one, Z.lor_spec, Z.pow2_bits_eqb by lia.
    destruct (Z.eqb_spec bp p); [lia|]. apply orb_false_r. }
  assert (Hcw_bp : Z.testbit cw' bp = bit).
  { subst cw'. destruct bit; [|apply Hhigh; lia].
    rewrite shl64_one, Z.lor_spec, Z.pow2_bits_eqb by lia.
    rewrite Z.eqb_refl. apply orb_true_r. }
  assert (Hcw_high : forall p, bp + 1 <= p -> Z.testbit cw' p = false).
  { intros p Hp. subst cw'. destruct bit; [|apply Hhigh; lia].
    rewrite shl64_one, Z.lor_spec, Z.pow2_bits_eqb by lia.
    rewrite Hhigh by lia. destruct (Z.eqb_spec bp p); [lia|done]. }
  assert (Hword : forall k p b, (p < 64)%nat ->
            (bs ++ [bit]) !! (64 * k + p)%nat = Some b ->
            Z.testbit (nth k (result ++ [cw']) 0) (Z.of_nat p) = b).
  { intros k p b Hp Hlook.
    destruct (decide (64 * k + p < length bs)%nat) as [Hin|Hout].
    - rewrite lookup_app_l in Hlook by done.
      specialize (Hbit k p b Hp Hlook).
      destruct (decide (k < length result)%nat) as [Hk|Hk].
      + rewrite app_nth1 in Hbit |- * by done. done.
      + assert (k = length result) as -> by lia.
        rewrite nth_middle in Hbit |- *. rewrite Hcw_low by lia. done.
    - apply lookup_lt_Some in Hlook as Hlt. rewrite length_app in Hlt.
      simpl in Hlt. assert (Heq : (64 * k + p)%nat = length bs) by lia.
      rewrite Heq, list_lookup_middle in Hlook by done.
      injection Hlook as <-.
      assert (k = length result /\ Z.of_nat p = bp) as [-> ->] by lia.
      rewrite nth_middle. done. }
  destruct (decide (64 <= bp + 1)) as [Hfull|Hroom]; split; simpl.
  - lia.
  - rewrite !length_app. simpl. lia.
  - intros p _. apply Z.testbit_0_l.
  - intros k p b Hp Hlook. specialize (Hword k p b Hp Hlook).
    apply lookup_lt_Some in Hlook. rewrite length_app in Hlook. simpl in Hlook.
    rewrite app_nth1; [done|]. rewrite length_app. simpl. lia.
  - lia.
  - rewrite length_app. simpl. lia.
  - done.
  - done.
Qed.

Lemma packed_foldl bs : packed bs (foldl bitsToBytes_step ([], 0, 0) bs).
Proof.
  induction bs as [|bit bs IH] using rev_ind; [apply packed_nil|].
  rewrite foldl_app. simpl. now apply packed_step.
Qed.

Lemma bitsToBytes_length bs :
  Z.of_nat (length (bitsToBytes bs)) = (Z.of_nat (length bs) + 63) / 64.
Proof.
  unfold bitsToBytes. pose proof (packed_foldl bs) as H.
  destruct (foldl bitsToBytes_step ([], 0, 0) bs) as [[result cw] bp].
  destruct H as [Hpos Hlen _ _]. simpl in *.
  destruct (decide (0 < bp)); rewrite ?length_app; simpl;
    apply (Z.div_unique_pos _ 64 _ (if decide (0 < bp) then bp - 1 else 63));
    destruct (decide (0 < bp)); lia.
Qed.

(** C3. [bitsToBytes] packs least-significant-bit first into 64-bit words:
    the bit emitted at index [i] is bit [i mod 64] of word [i / 64] of the
    payload (so the first emitted bit is bit 0 of the first word). *)
Theorem bitsToBytes_bit_position (bs : list bool) (i : nat) (b : bool) :
  bs !! i = Some b ->
  exists w, bitsToBytes bs !! (i / 64)%nat = Some w /\
            Z.testbit w (Z.of_nat (i mod 64)) = b.
Proof.
  intros Hi. unfold bitsToBytes. pose proof (packed_foldl bs) as H.
  destruct (foldl bitsToBytes_step ([], 0, 0) bs) as [[result cw] bp].
  destruct H as [Hpos Hlen Hhigh Hbit]. simpl in *.
  pose proof (Nat.div_mod_eq i 64) as Hdm.
  pose proof (Nat.mod_upper_bound i 64 ltac:(lia)) as Hp.
  set (k := (i / 64)%nat) in *. set (p := (i mod 64)%nat) in *.
  rewrite Hdm in Hi. apply lookup_lt_Some in Hi as Hlt.
  specialize (Hbit k p b Hp Hi).
  assert (Hk : (k < length (if decide (0 < bp)%Z then result ++ [cw] else result))%nat).
  { destruct (decide (0 < bp)); rewrite ?length_app; simpl; lia. }
  destruct (lookup_lt_is_Some_2 _ _ Hk) as [w Hw].
  exists w. split; [done|].
  rewrite <- Hbit. f_equal.
  destruct (decide (0 < bp)).
  - symmetry. now apply nth_lookup_Some.
  - symmetry. apply nth_lookup_Some. now apply lookup_app_l_Some.
Qed.

Lemma bitsToBytes_bit_position_witness :
  exists w, bitsToBytes (replicate 64 false ++ [true; false; true]) !! (66 / 64)%nat
              = Some w /\
            Z.testbit w (Z.of_nat (66 mod 64)) = true.
Proof.
  apply (bitsToBytes_bit_position (replicate 64 false ++ [true; false; true]) 66 true).
  reflexivity.
Defined.

(** ** Counted loops that only append *)

Lemma run_loop_append {A} (F : Z -> list A -> option (list A))
    (G : Z -> list A) (l : list Z) (acc : list A) :
  (forall i acc', i ∈ l -> F i acc' = Some (acc' ++ G i)) ->
  run_loop F l acc = Some (acc ++ (l ≫= G)).
Proof.
  revert acc. induction l as [|i l IH]; intros acc HF; simpl.
  - now rewrite app_nil_r.
  - rewrite HF by apply list_elem_of_here.
    rewrite IH by (intros; apply HF; now apply list_elem_of_further).
    now rewrite app_assoc.
Qed.

Lemma for_range_append {A} (F : Z -> list A -> option (list A))
    (G : Z -> list A) (lo hi : Z) (acc : list A) :
  (forall i acc', lo <= i < hi -> F i acc' = Some (acc' ++ G i)) ->
  for_range lo hi F acc = Some (acc ++ (seqZ lo (hi - lo) ≫= G)).
Proof.
  intros HF. apply run_loop_append. intros i acc' Hi.
  apply elem_of_seqZ in Hi. apply HF. lia.
Qed.

(** ** The grid in row-major order *)

Lemma concat_row_major (grid : list (list Z)) (w y x : nat) :
  Forall (fun row => length row = w) grid -> (x < w)%nat ->
  concat grid !! (y * w + x)%nat = grid !! y ≫= (.!! x).
Proof.
  intros Hrows Hx. revert y. induction Hrows as [|row rest Hrow _ IH]; intros y.
  - done.
  - destruct y as [|y]; simpl.
    + rewrite lookup_app_l by lia. done.
    + rewrite <- Hrow at 1. rewrite <- Nat.add_assoc, lookup_app_r by lia.
      replace (length row + (y * w + x) - length row)%nat with (y * w + x)%nat by lia.
      apply IH.
Qed.

Lemma index_row_major (grid : list (list Z)) (sw sh y x : Z) :
  is_grid grid sw sh -> 0 <= y < sh -> 0 <= x < sw ->
  index (concat grid) (y * sw + x) = Some (grid_at grid y x).
Proof.
  intros [Hlen Hrows] Hy Hx. unfold index, grid_at.
  rewrite decide_True by nia.
  replace (Z.to_nat (y * sw + x)) with (Z.to_nat y * Z.to_nat sw + Z.to_nat x)%nat by nia.
  rewrite (concat_row_major grid (Z.to_nat sw)); [|..|lia].
  - destruct (lookup_lt_is_Some_2 grid (Z.to_nat y) ltac:(lia)) as [row Hrow].
    rewrite Hrow. simpl.
    assert (Z.of_nat (length row) = sw) as Hw.
    { eapply (Forall_lookup_1 _ _ _ _ Hrows). exact Hrow. }
    destruct (lookup_lt_is_Some_2 row (Z.to_nat x) ltac:(lia)) as [v Hv].
    now rewrite Hv.
  - eapply Forall_impl; [exact Hrows|]. simpl. intros; lia.
Qed.

(** ** The gradient signature: [doubleGradientHashBits] *)

Lemma in_int_below (z bound : Z) :
  0 <= z <= bound -> bound <= GoInt.int_max -> GoInt.in_int z.
Proof. unfold GoInt.in_int, GoInt.int_min. lia. Qed.

Lemma maxAlloc_int : maxAlloc <= GoInt.int_max.
Proof. unfold maxAlloc, GoInt.int_max. lia. Qed.

(** The bits do not fit in one allocation: [make] panics. *)
Lemma doubleGradientHashBits_alloc (pixels : list Z) (sw sh : Z) :
  0 <= sw -> 0 <= sh -> 2 * (sw * sh) <= GoInt.int_max ->
  maxAlloc < 2 * (sw * sh) ->
  doubleGradientHashBits pixels sw sh = None.
Proof.
  intros Hsw Hsh Hmax Hbig.
  assert (forall z, 0 <= z <= 2 * (sw * sh) -> GoInt.in_int z) as Hin.
  { intros z Hz. apply (in_int_below z (2 * (sw * sh))); lia. }
  unfold doubleGradientHashBits.
  rewrite !mul_small, add_small by (apply Hin; nia).
  unfold make_cap. rewrite decide_False by lia. done.
Qed.

(** The two passes over a slice whose sample at [y * sw + x] is [g y x]. *)
Lemma doubleGradientHashBits_emits (pixels : list Z) (g : Z -> Z -> Z) (sw sh : Z) :
  0 <= sw -> 0 <= sh -> 2 * (sw * sh) <= maxAlloc ->
  (forall y x, 0 <= y < sh -> 0 <= x < sw ->
               index pixels (y * sw + x) = Some (g y x)) ->
  doubleGradientHashBits pixels sw sh = Some (gradient_reference g sw sh).
Proof.
  intros Hsw Hsh Hmax Hpix.
  assert (forall z, 0 <= z <= 2 * (sw * sh) -> GoInt.in_int z) as Hin.
  { intros z Hz. apply (in_int_below z maxAlloc); [lia|apply maxAlloc_int]. }
  unfold doubleGradientHashBits, gradient_reference.
  rewrite !mul_small, add_small by (apply Hin; nia).
  unfold make_cap. rewrite decide_True by nia. simpl.
  rewrite (for_range_append _
             (fun y => seqZ 1 (sw - 1) ≫= fun x =>
                [bool_decide (g y x > g y (x - 1))])).
  2:{ intros y acc Hy. apply for_range_append. intros x acc' Hx.
      rewrite mul_small by (apply Hin; nia).
      rewrite add_small by (apply Hin; nia).
      rewrite sub_small by (apply Hin; nia).
      rewrite Hpix by lia. simpl.
      replace (y * sw + x - 1) with (y * sw + (x - 1)) by lia.
      rewrite Hpix by lia. simpl.
      do 3 f_equal. apply bool_decide_ext. lia. }
  simpl.
  rewrite (for_range_append _
             (fun x => seqZ 1 (sh - 1) ≫= fun y =>
                [bool_decide (g y x > g (y - 1) x)])).
  2:{ intros x acc Hx. apply for_range_append. intros y acc' Hy.
      rewrite sub_small by (apply Hin; nia).
      rewrite !mul_small by (apply Hin; nia).
      rewrite !add_small by (apply Hin; nia).
      rewrite !Hpix by lia. simpl.
      do 3 f_equal. apply bool_decide_ext. lia. }
  unfold horizontal_pass, vertical_pass. now rewrite !Z.sub_0_r.
Qed.

(** C1. On an intensity grid of [sw] columns and [sh] rows, given in
    row-major order, [doubleGradientHashBits] returns the reference bit
    sequence: the horizontal pass row by row, then the vertical pass column by
    column, every bit a strict greater-than of a sample over its neighbour,
    so that equal neighbours give [false].  It returns whenever the
    [2 * sw * sh] bits it reserves are within [maxAlloc]; for a larger grid
    the [make] of the bit slice panics. *)
Theorem doubleGradientHashBits_reference (grid : list (list Z)) (sw sh : Z) :
  is_grid grid sw sh -> 0 <= sw -> 2 * (sw * sh) <= GoInt.int_max ->
  doubleGradientHashBits (concat grid) sw sh
  = if decide (2 * (sw * sh) <= maxAlloc)
    then Some (gradient_reference (grid_at grid) sw sh)
    else None.
Proof.
  intros Hgrid Hsw Hmax.
  assert (0 <= sh) as Hsh by (destruct Hgrid as [<- _]; lia).
  destruct (decide (2 * (sw * sh) <= maxAlloc)) as [Hfits|Hbig].
  - apply doubleGradientHashBits_emits; try done.
    intros y x Hy Hx. now apply (index_row_major grid sw sh).
  - apply doubleGradientHashBits_alloc; try done. lia.
Qed.

Lemma doubleGradientHashBits_reference_witness :
  doubleGradientHashBits (concat [[10; 20; 20]; [5; 5; 1]]) 3 2
  = Some (gradient_reference (grid_at [[10; 20; 20]; [5; 5; 1]]) 3 2).
Proof.
  apply (doubleGradientHashBits_reference [[10; 20; 20]; [5; 5; 1]] 3 2).
  - split; [reflexivity|]. repeat constructor.
  - lia.
  - unfold GoInt.int_max. lia.
Defined.

Example gradient_reference_ties :
  gradient_reference (grid_at [[10; 20; 20]; [5; 5; 1]]) 3 2
  = [true; false; false; false; false; false; false].
Proof. reflexivity. Qed.

(** ** Loops that keep an invariant *)

Lemma run_loop_invariant {S} (P : S -> Prop) (F : Z -> S -> option S)
    (l : list Z) (s : S) :
  P s ->
  (forall i s0, i ∈ l -> P s0 -> exists s1, F i s0 = Some s1 /\ P s1) ->
  exists s', run_loop F l s = Some s' /\ P s'.
Proof.
  revert s. induction l as [|i l IH]; intros s Hs HF; simpl.
  - now exists s.
  - destruct (HF i s (list_elem_of_here _ _) Hs) as (s1 & -> & Hs1).
    apply IH; [done|]. intros j s0 Hj. apply HF. now apply list_elem_of_further.
Qed.

Lemma for_range_invariant {S} (P : S -> Prop) (F : Z -> S -> option S)
    (lo hi : Z) (s : S) :
  P s ->
  (forall i s0, lo <= i < hi -> P s0 -> exists s1, F i s0 = Some s1 /\ P s1) ->
  exists s', for_range lo hi F s = Some s' /\ P s'.
Proof.
  intros Hs HF. apply run_loop_invariant; [done|].
  intros i s0 Hi. apply elem_of_seqZ in Hi. apply HF. lia.
Qed.

(** ** The length of the signature *)

Lemma length_bind_const {A B} (f : A -> list B) (l : list A) (n : nat) :
  (forall x, length (f x) = n) -> length (l ≫= f) = (length l * n)%nat.
Proof.
  intros Hf. induction l as [|x l IH]; csimpl; [done|].
  rewrite length_app, Hf, IH. lia.
Qed.

Lemma gradient_reference_length (g : Z -> Z -> Z) (sw sh : Z) :
  1 <= sw -> 1 <= sh ->
  Z.of_nat (length (gradient_reference g sw sh))
  = sh * (sw - 1) + sw * (sh - 1).
Proof.
  intros Hsw Hsh. unfold gradient_reference, horizontal_pass, vertical_pass.
  rewrite length_app.
  rewrite (length_bind_const _ _ (Z.to_nat (sw - 1))).
  2:{ intros y. rewrite (length_bind_const _ _ 1) by done.
      rewrite length_seqZ. lia. }
  rewrite (length_bind_const _ _ (Z.to_nat (sh - 1))).
  2:{ intros x. rewrite (length_bind_const _ _ 1) by done.
      rewrite length_seqZ. lia. }
  rewrite !length_seqZ. nia.
Qed.

(** ** Rounding the requested size *)

Lemma rounded_dimension (n : Z) :
  0 <= n < 2 ^ 31 ->
  GoInt.to_int (nextMultipleOf2 (GoInt.to_uint n)) = n + n mod 2.
Proof.
  intros Hn. rewrite to_uint_small by lia. unfold nextMultipleOf2.
  pose proof (Z.mod_pos_bound n 2 ltac:(lia)) as Hmod.
  destruct (decide (n mod 2 = 0)) as [H0|H1].
  - rewrite to_int_small; [lia|]. unfold GoInt.in_int, GoInt.int_min, GoInt.int_max. lia.
  - rewrite uadd_small by lia.
    rewrite to_int_small; [lia|]. unfold GoInt.in_int, GoInt.int_min, GoInt.int_max. lia.
Qed.

Lemma sample_dimension (r : Z) :
  0 <= r <= 2 ^ 31 -> GoInt.add (GoInt.div r 2) 1 = r / 2 + 1.
Proof.
  intros Hr. unfold GoInt.div. rewrite Z.quot_div_nonneg by lia.
  pose proof (Z.div_pos r 2 ltac:(lia) ltac:(lia)).
  pose proof (Z.div_le_upper_bound r 2 (2 ^ 31) ltac:(lia) ltac:(lia)).
  rewrite to_int_small by (unfold GoInt.in_int, GoInt.int_min, GoInt.int_max; lia).
  apply add_small. unfold GoInt.in_int, GoInt.int_min, GoInt.int_max. lia.
Qed.

Lemma rounded_up_to_even_unique (n r : Z) :
  rounded_up_to_even n r -> r = n + n mod 2.
Proof.
  intros ([k ->] & Hle & Hleast).
  pose proof (Z.mod_pos_bound n 2 ltac:(lia)) as Hmod.
  pose proof (Z.div_mod n 2 ltac:(lia)) as Hdm.
  assert (Z.Even (n + n mod 2)) as Heven.
  { exists (n / 2 + n mod 2). lia. }
  specialize (Hleast _ Heven ltac:(lia)). lia.
Qed.

Lemma rounded_up_to_even_intro (n : Z) : rounded_up_to_even n (n + n mod 2).
Proof.
  pose proof (Z.mod_pos_bound n 2 ltac:(lia)) as Hmod.
  pose proof (Z.div_mod n 2 ltac:(lia)) as Hdm.
  split; [|split].
  - exists (n / 2 + n mod 2). lia.
  - lia.
  - intros e [k ->] Hle. lia.
Qed.

(** ** [DoubleGradientHash] returns *)

Section SamplingFacts.

Context {Image Color : Type} `{!Imaging Image Color}.

(** The sizes of the resampled image for a requested size in range. *)
Lemma sample_sizes (width height : Z) :
  0 <= width < 2 ^ 31 -> 0 <= height < 2 ^ 31 ->
  let sw := (width + width mod 2) / 2 + 1 in
  let sh := (height + height mod 2) / 2 + 1 in
  1 <= sw <= 2 ^ 30 + 1 /\ 1 <= sh <= 2 ^ 30 + 1 /\
  sw * sh <= (2 ^ 30 + 1) * (2 ^ 30 + 1).
Proof.
  intros Hw Hh sw sh.
  pose proof (Z.mod_pos_bound width 2 ltac:(lia)) as Hwm.
  pose proof (Z.mod_pos_bound height 2 ltac:(lia)) as Hhm.
  assert (1 <= sw <= 2 ^ 30 + 1) as Hsw.
  { subst sw. split; [pose proof (Z.div_pos (width + width mod 2) 2); lia|].
    pose proof (Z.div_le_upper_bound (width + width mod 2) 2 (2 ^ 30)); lia. }
  assert (1 <= sh <= 2 ^ 30 + 1) as Hsh.
  { subst sh. split; [pose proof (Z.div_pos (height + height mod 2) 2); lia|].
    pose proof (Z.div_le_upper_bound (height + height mod 2) 2 (2 ^ 30)); lia. }
  split; [done|]. split; [done|]. nia.
Qed.

(** For a requested size in range whose samples and bits each fit in one
    allocation the function returns, with a [nil] error, the packed signature
    of some sampling [g] of the image at the resampled size; the image itself
    is unconstrained. *)
Lemma DoubleGradientHash_returns (img : Image) (width height : Z) :
  0 <= width < 2 ^ 31 -> 0 <= height < 2 ^ 31 ->
  2 * (((width + width mod 2) / 2 + 1) * ((height + height mod 2) / 2 + 1))
  <= maxAlloc ->
  exists g : Z -> Z -> Z,
    let sw := (width + width mod 2) / 2 + 1 in
    let sh := (height + height mod 2) / 2 + 1 in
    DoubleGradientHash img width height
    = Some (NewExtImageHash (bitsToBytes (gradient_reference g sw sh)) DGHash
              (Z.of_nat (length (gradient_reference g sw sh))), None).
Proof.
  intros Hw Hh Hfits. unfold DoubleGradientHash.
  rewrite !rounded_dimension by done.
  pose proof (Z.mod_pos_bound width 2 ltac:(lia)) as Hwm.
  pose proof (Z.mod_pos_bound height 2 ltac:(lia)) as Hhm.
  rewrite !sample_dimension by lia.
  destruct (sample_sizes width height Hw Hh) as (Hsw & Hsh & Hprod).
  cbv zeta in Hsw, Hsh, Hprod.
  set (sw := (width + width mod 2) / 2 + 1) in *.
  set (sh := (height + height mod 2) / 2 + 1) in *.
  assert (forall z, 0 <= z <= sw * sh -> GoInt.in_int z) as Hin.
  { intros z Hz. unfold GoInt.in_int, GoInt.int_min, GoInt.int_max. lia. }
  (* the grayscale copy *)
  match goal with
  | |- context [for_range 0 (Dy img) ?F ?s] =>
      destruct (for_range_invariant (fun _ => True) F 0 (Dy img) s) as (gray & -> & _)
  end; [done| |].
  { intros y g0 _ _. apply for_range_invariant; [done|]. intros x g1 _ _. eauto. }
  (* the sample slice *)
  simpl. rewrite mul_small by (apply Hin; nia).
  unfold make. rewrite decide_True by nia. simpl.
  match goal with
  | |- context [for_range 0 sh ?F ?s] =>
      destruct (for_range_invariant
                  (fun pixels : list Z => Z.of_nat (length pixels) = sw * sh)
                  F 0 sh s) as (pixels & -> & Hlen)
  end.
  { rewrite length_replicate. nia. }
  { intros y p0 Hy Hp0. apply for_range_invariant; [done|].
    intros x p1 Hx Hp1.
    rewrite mul_small by (apply Hin; nia). rewrite add_small by (apply Hin; nia).
    unfold store. rewrite decide_True by nia.
    eexists. split; [done|]. now rewrite length_insert. }
  simpl.
  exists (fun y x => default 0 (pixels !! Z.to_nat (y * sw + x))).
  rewrite (doubleGradientHashBits_emits pixels
             (fun y x => default 0 (pixels !! Z.to_nat (y * sw + x))) sw sh);
    [done|lia|lia|done|].
  intros y x Hy Hx. unfold index. rewrite decide_True by nia.
  destruct (lookup_lt_is_Some_2 pixels (Z.to_nat (y * sw + x)) ltac:(nia)) as [v Hv].
  now rewrite Hv.
Qed.

(** When the function returns, the samples and the bits each fitted in one
    allocation: both calls of [make] passed. *)
Lemma DoubleGradientHash_alloc (img : Image) (width height : Z)
    (r : ExtImageHash * option error) :
  0 <= width < 2 ^ 31 -> 0 <= height < 2 ^ 31 ->
  DoubleGradientHash img width height = Some r ->
  2 * (((width + width mod 2) / 2 + 1) * ((height + height mod 2) / 2 + 1))
  <= maxAlloc.
Proof.
  intros Hw Hh Hr. unfold DoubleGradientHash in Hr.
  rewrite !rounded_dimension in Hr by done.
  pose proof (Z.mod_pos_bound width 2 ltac:(lia)) as Hwm.
  pose proof (Z.mod_pos_bound height 2 ltac:(lia)) as Hhm.
  rewrite !sample_dimension in Hr by lia.
  destruct (sample_sizes width height Hw Hh) as (Hsw & Hsh & Hprod).
  cbv zeta in Hsw, Hsh, Hprod.
  set (sw := (width + width mod 2) / 2 + 1) in *.
  set (sh := (height + height mod 2) / 2 + 1) in *.
  apply bind_Some in Hr as (gray & _ & Hr).
  apply bind_Some in Hr as (pixels0 & _ & Hr).
  apply bind_Some in Hr as (pixels & _ & Hr).
  apply bind_Some in Hr as (hashBits & Hbits & _).
  destruct (decide (2 * (sw * sh) <= maxAlloc)) as [Hfits|Hbig]; [done|].
  rewrite doubleGradientHashBits_alloc in Hbits; [done|lia|lia| |lia].
  unfold GoInt.int_max. lia.
Qed.

(** C2. For a requested width and height from 0 up to [2 ^ 31], the hash
    that [DoubleGradientHash] returns has [sh * (sw - 1) + sw * (sh - 1)] bits, where [sw] and [sh] are
    half the width and the height rounded up to even, plus one.  The function
    returns whenever the [2 * sw * sh] bits fit in one allocation. *)
Theorem DoubleGradientHash_bitCount (img : Image)
    (width height width_rounded height_rounded : Z) :
  0 <= width < 2 ^ 31 -> 0 <= height < 2 ^ 31 ->
  rounded_up_to_even width width_rounded ->
  rounded_up_to_even height height_rounded ->
  let sw := width_rounded / 2 + 1 in
  let sh := height_rounded / 2 + 1 in
  (forall h e, DoubleGradientHash img width height = Some (h, e) ->
               bits h = sh * (sw - 1) + sw * (sh - 1)) /\
  (2 * (sw * sh) <= maxAlloc ->
   exists h, DoubleGradientHash img width height = Some (h, None) /\
             bits h = sh * (sw - 1) + sw * (sh - 1)).
Proof.
  intros Hw Hh Hwr Hhr sw sh.
  apply rounded_up_to_even_unique in Hwr, Hhr. subst sw sh width_rounded height_rounded.
  assert (2 * (((width + width mod 2) / 2 + 1) * ((height + height mod 2) / 2 + 1))
          <= maxAlloc ->
          exists h, DoubleGradientHash img width height = Some (h, None) /\
                    bits h = ((height + height mod 2) / 2 + 1)
                             * ((width + width mod 2) / 2 + 1 - 1)
                             + ((width + width mod 2) / 2 + 1)
                               * ((height + height mod 2) / 2 + 1 - 1)) as Hreturns.
  { intros Hfits.
    destruct (DoubleGradientHash_returns img width height Hw Hh Hfits) as [g Hg].
    simpl in Hg. eexists. split; [exact Hg|]. simpl.
    pose proof (Z.mod_pos_bound width 2 ltac:(lia)).
    pose proof (Z.mod_pos_bound height 2 ltac:(lia)).
    apply gradient_reference_length.
    - pose proof (Z.div_pos (width + width mod 2) 2). lia.
    - pose proof (Z.div_pos (height + height mod 2) 2). lia. }
  split; [|done].
  intros h e Hr.
  destruct (Hreturns (DoubleGradientHash_alloc img width height _ Hw Hh Hr))
    as (h' & Hr' & Hbits).
  rewrite Hr in Hr'. now injection Hr' as -> _.
Qed.

(** What [DoubleGradientHash] returns, when it does: the packed bits of some
    signature, their number, and a [nil] error. *)
Lemma DoubleGradientHash_Some (img : Image) (width height : Z)
    (r : ExtImageHash * option error) :
  DoubleGradientHash img width height = Some r ->
  exists hashBits : list bool,
    r = (NewExtImageHash (bitsToBytes hashBits) DGHash
           (Z.of_nat (length hashBits)), None).
Proof.
  unfold DoubleGradientHash. intros Hr.
  apply bind_Some in Hr as (gray & _ & Hr).
  apply bind_Some in Hr as (pixels0 & _ & Hr).
  apply bind_Some in Hr as (pixels & _ & Hr).
  apply bind_Some in Hr as (hashBits & _ & Hr).
  exists hashBits. now injection Hr as <-.
Qed.

(** C8. Every hash that [DoubleGradientHash] returns satisfies the payload
    invariant for 64-bit words: the bit count is at most 64 times the number
    of payload words and more than 64 times that number less one, so no
    trailing word is wholly unused.  For a requested size in range whose
    [2 * sw * sh] bits fit in one allocation the function does return. *)
Theorem DoubleGradientHash_payload_invariant (img : Image) (width height : Z) :
  (forall h e, DoubleGradientHash img width height = Some (h, e) ->
               bits h <= Z.of_nat (length (hash h)) * 64 /\
               bits h > (Z.of_nat (length (hash h)) - 1) * 64) /\
  (0 <= width < 2 ^ 31 -> 0 <= height < 2 ^ 31 ->
   2 * (((width + width mod 2) / 2 + 1) * ((height + height mod 2) / 2 + 1))
   <= maxAlloc ->
   exists h, DoubleGradientHash img width height = Some (h, None)).
Proof.
  split.
  - intros h e Hr. apply DoubleGradientHash_Some in Hr as [hashBits [= -> ->]].
    simpl. rewrite bitsToBytes_length.
    set (n := Z.of_nat (length hashBits)).
    pose proof (Z.div_mod (n + 63) 64 ltac:(lia)).
    pose proof (Z.mod_pos_bound (n + 63) 64 ltac:(lia)). lia.
  - intros Hw Hh Hfits.
    destruct (DoubleGradientHash_returns img width height Hw Hh Hfits) as [g Hg].
    eexists. exact Hg.
Qed.


End SamplingFacts.

Lemma DoubleGradientHash_bitCount_witness :
  exists h, DoubleGradientHash ramp_image 7 8 = Some (h, None) /\
            bits h = (8 / 2 + 1) * ((8 / 2 + 1) - 1) + (8 / 2 + 1) * ((8 / 2 + 1) - 1).
Proof.
  apply (DoubleGradientHash_bitCount ramp_image 7 8 8 8); try lia.
  - split; [exists 4; lia|]. split; [lia|]. intros e [k ->] He. lia.
  - split; [exists 4; lia|]. split; [lia|]. intros e [k ->] He. lia.
  - vm_compute. discriminate.
Defined.

Example DoubleGradientHash_ramp_image :
  DoubleGradientHash ramp_image 8 8
  = Some (NewExtImageHash [978670] DGHash 40, None).
Proof. vm_compute. reflexivity. Qed.


(** A requested size of [2 ^ 30] by [2 ^ 30] asks for [(2 ^ 29 + 1) ^ 2]
    samples, more than [maxAlloc]: the [make] of the sample slice panics. *)
Example DoubleGradientHash_past_maxAlloc :
  DoubleGradientHash empty_image (2 ^ 30) (2 ^ 30) = None.
Proof. vm_compute. reflexivity. Qed.

(** ** Base64 without padding: [ToBase64] *)

Lemma list_ind3 {A} (P : list A -> Prop) :
  P [] -> (forall a, P [a]) -> (forall a b, P [a; b]) ->
  (forall a b c l, P l -> P (a :: b :: c :: l)) ->
  forall l, P l.
Proof.
  intros H0 H1 H2 H3 l.
  enough (P l /\ (forall a, P (a :: l)) /\ (forall a b, P (a :: b :: l))) by tauto.
  induction l as [|c l (IH0 & IH1 & IH2)]; [auto|].
  split; [apply IH1|]. split; [intros a; apply IH2|]. intros a b. now apply H3.
Qed.

Lemma EncodeToString_length (src : list Z) :
  Z.of_nat (String.length (EncodeToString src))
  = (4 * Z.of_nat (length src) + 2) / 3.
Proof.
  induction src as [| a | a b | a b c l IH] using list_ind3; try reflexivity.
  change (EncodeToString (a :: b :: c :: l))
    with (String (sextet (Z.lor (Z.lor (Z.shiftl a 16) (Z.shiftl b 8)) c) 18)
         (String (sextet (Z.lor (Z.lor (Z.shiftl a 16) (Z.shiftl b 8)) c) 12)
         (String (sextet (Z.lor (Z.lor (Z.shiftl a 16) (Z.shiftl b 8)) c) 6)
         (String (sextet (Z.lor (Z.lor (Z.shiftl a 16) (Z.shiftl b 8)) c) 0)
                 (EncodeToString l))))).
  cbn [String.length length].
  replace (4 * Z.of_nat (S (S (S (length l)))) + 2)
    with ((4 * Z.of_nat (length l) + 2) + 4 * 3) by lia.
  rewrite Z.div_add by lia. lia.
Qed.

Lemma sextet_not_pad (val shift : Z) : sextet val shift <> "="%char.
Proof.
  unfold sextet.
  assert (Forall (fun c => c <> "="%char) encodeStd) as Hall.
  { apply Forall_forall. intros c Hc. apply list_elem_of_In in Hc.
    assert (forallb (fun c => negb (Ascii.eqb c "=")) encodeStd = true) as Hb
      by reflexivity.
    rewrite forallb_forall in Hb. specialize (Hb c Hc).
    intros ->. discriminate. }
  assert (Z.to_nat (Z.land (Z.shiftr val shift) 63) < length encodeStd)%nat as Hk.
  { change 63 with (Z.ones 6). rewrite Z.land_ones by lia.
    pose proof (Z.mod_pos_bound (Z.shiftr val shift) (2 ^ 6) ltac:(lia)).
    change (length encodeStd) with 64%nat. lia. }
  destruct (lookup_lt_is_Some_2 _ _ Hk) as [c Hc].
  rewrite (nth_lookup_Some _ _ _ _ Hc).
  eapply (Forall_lookup_1 _ _ _ _ Hall). exact Hc.
Qed.

Lemma EncodeToString_no_padding (src : list Z) :
  Forall (fun c => c <> "="%char) (String.list_ascii_of_string (EncodeToString src)).
Proof.
  induction src as [| a | a b | a b c l IH] using list_ind3;
    repeat first [ apply Forall_nil_2 | apply Forall_cons_2; [apply sextet_not_pad|] ].
  exact IH.
Qed.

Lemma hashWord_bytes_spec (acc : list Z) (w : Z) :
  hashWord_bytes acc w
  = acc ++ ((fun i => (w / 2 ^ (8 * i)) mod 256) <$> seqZ 0 8).
Proof.
  unfold hashWord_bytes.
  change (seqZ 0 8) with [0; 1; 2; 3; 4; 5; 6; 7].
  assert (forall i, 0 <= i < 8 ->
            GoInt.to_uint8 (Z.land (GoInt.shr64 w (GoInt.umul i 8)) 255)
            = (w / 2 ^ (8 * i)) mod 256) as Hbyte.
  { intros i Hi. unfold GoInt.umul, GoInt.shr64, GoInt.to_uint8.
    rewrite to_uint_small by lia.
    rewrite Z.shiftr_div_pow2 by lia.
    change 255 with (Z.ones 8). rewrite Z.land_ones by lia.
    replace (i * 8) with (8 * i) by lia.
    change (2 ^ 8) with 256. now rewrite Z.mod_mod by lia. }
  cbn [foldl fmap list_fmap].
  rewrite !Hbyte by lia. now rewrite <- !app_assoc.
Qed.

Lemma hashBytes_spec (acc : list Z) (payload : list Z) :
  foldl hashWord_bytes acc payload = acc ++ payload_bytes payload.
Proof.
  revert acc. induction payload as [|w ws IH]; intros acc.
  - simpl. now rewrite app_nil_r.
  - cbn [foldl]. rewrite IH, hashWord_bytes_spec. unfold payload_bytes.
    rewrite bind_cons. now rewrite <- app_assoc.
Qed.

Lemma payload_bytes_length (payload : list Z) :
  Z.of_nat (length (payload_bytes payload)) = 8 * Z.of_nat (length payload).
Proof.
  unfold payload_bytes. rewrite (length_bind_const _ _ 8); [lia|].
  intros w. now rewrite length_fmap, length_seqZ.
Qed.

(** C4. For a hash whose bit count fits its payload, [ToBase64] encodes
    exactly the first [ceil(bits / 8)] bytes of the payload in base64
    without padding: the string has [ceil(4 * ceil(bits / 8) / 3)]
    characters, none of them the padding character. *)
Theorem ToBase64_meaningful_bytes (h : ExtImageHash) :
  0 <= bits h <= 64 * Z.of_nat (length (hash h)) ->
  64 * Z.of_nat (length (hash h)) <= GoInt.int_max ->
  let n := (bits h + 7) / 8 in
  exists s,
    ToBase64 h = Some s /\
    s = EncodeToString (take (Z.to_nat n) (payload_bytes (hash h))) /\
    Z.of_nat (String.length s) = (4 * n + 2) / 3 /\
    Forall (fun c => c <> "="%char) (String.list_ascii_of_string s).
Proof.
  intros Hbits Hmax n.
  assert (0 <= n <= 8 * Z.of_nat (length (hash h))) as Hn.
  { unfold n. pose proof (Z.div_mod (bits h + 7) 8 ltac:(lia)).
    pose proof (Z.mod_pos_bound (bits h + 7) 8 ltac:(lia)). lia. }
  assert (forall z, 0 <= z <= 64 * Z.of_nat (length (hash h)) -> GoInt.in_int z) as Hin.
  { intros z Hz. unfold GoInt.in_int, GoInt.int_min. unfold GoInt.int_max in *. lia. }
  assert (ToBase64 h
          = Some (EncodeToString (take (Z.to_nat n) (payload_bytes (hash h))))) as Hrun.
  { unfold ToBase64. rewrite hashBytes_spec, app_nil_l, payload_bytes_length.
    rewrite mul_small by (apply Hin; lia).
    destruct (decide (bits h < 8 * Z.of_nat (length (hash h)) * 8)) as [Hlt|Hge].
    - unfold GoInt.div, GoInt.rem.
      rewrite Z.quot_div_nonneg, Z.rem_mod_nonneg by lia.
      pose proof (Z.div_mod (bits h) 8 ltac:(lia)) as Hdm.
      pose proof (Z.mod_pos_bound (bits h) 8 ltac:(lia)) as Hmod.
      rewrite !to_int_small by (apply Hin; lia).
      assert ((if decide (bits h mod 8 <> 0)
               then GoInt.add (bits h / 8) 1 else bits h / 8) = n) as ->.
      { unfold n. destruct (decide (bits h mod 8 <> 0)).
        - rewrite add_small by (apply Hin; lia).
          apply (Z.div_unique_pos _ 8 _ (bits h mod 8 - 1)); lia.
        - apply (Z.div_unique_pos _ 8 _ 7); lia. }
      unfold slice_to. rewrite payload_bytes_length, decide_True by lia. done.
    - simpl. rewrite take_ge; [done|].
      pose proof (payload_bytes_length (hash h)).
      assert (n = 8 * Z.of_nat (length (hash h))); [|lia].
      unfold n. symmetry. apply (Z.div_unique_pos _ 8 _ 7); lia. }
  eexists. split; [exact Hrun|]. split; [done|]. split.
  - rewrite EncodeToString_length, length_take, Nat2Z.inj_min, payload_bytes_length.
    do 2 f_equal. lia.
  - apply EncodeToString_no_padding.
Qed.

Lemma ToBase64_meaningful_bytes_witness :
  exists s,
    ToBase64 (NewExtImageHash [978670] DGHash 40) = Some s /\
    s = EncodeToString (take (Z.to_nat ((40 + 7) / 8)) (payload_bytes [978670])) /\
    Z.of_nat (String.length s) = (4 * ((40 + 7) / 8) + 2) / 3 /\
    Forall (fun c => c <> "="%char) (String.list_ascii_of_string s).
Proof.
  apply (ToBase64_meaningful_bytes (NewExtImageHash [978670] DGHash 40)).
  - simpl. lia.
  - simpl. unfold GoInt.int_max. lia.
Defined.

Example ToBase64_ramp_image :
  ToBase64 (NewExtImageHash [978670] DGHash 40) = Some "7u4OAAA".
Proof. reflexivity. Qed.

(** ** Grouping: the scan for one seed *)

Section GroupingFacts.

Context {HashPtr ExtHashPtr : Type}.
Variable Hash_Distance : HashPtr -> HashPtr -> Z * option error.
Variable ExtHash_Distance : ExtHashPtr -> ExtHashPtr -> Z * option error.
Variable threshold : Z.

Local Abbreviation ImageInfo := (@ImageInfo HashPtr ExtHashPtr).
Local Abbreviation Distance := (Distance Hash_Distance ExtHash_Distance).
Local Abbreviation similar := (similar Hash_Distance ExtHash_Distance threshold).
Local Abbreviation similarb := (similarb Hash_Distance ExtHash_Distance threshold).
Local Abbreviation joins := (joins Hash_Distance ExtHash_Distance threshold).
Local Abbreviation takes := (takes Hash_Distance ExtHash_Distance threshold).
Local Abbreviation collected := (collected Hash_Distance ExtHash_Distance threshold).
Local Abbreviation seeded := (seeded Hash_Distance ExtHash_Distance threshold).
Local Abbreviation scan_step := (scan_step Hash_Distance ExtHash_Distance threshold).
Local Abbreviation seed_step := (seed_step Hash_Distance ExtHash_Distance threshold).
Local Abbreviation group_loop := (group_loop Hash_Distance ExtHash_Distance threshold).
Local Abbreviation findSimilarIndexed :=
  (findSimilarIndexed Hash_Distance ExtHash_Distance threshold).
Local Abbreviation findSimilarGroups :=
  (findSimilarGroups Hash_Distance ExtHash_Distance threshold).
Local Abbreviation step := (step Hash_Distance ExtHash_Distance threshold).
Local Abbreviation returns := (returns Hash_Distance ExtHash_Distance threshold).

Lemma similarb_spec (img1 img2 : ImageInfo) :
  similarb img1 img2 = true <-> similar img1 img2.
Proof.
  unfold similarb, similar. rewrite andb_true_iff, eqb_true_iff.
  destruct (Distance img1 img2) as [d [e|]].
  - split; [intros [_ ?]; discriminate|]. intros (_ & d' & Hd & _). discriminate.
  - rewrite bool_decide_eq_true. split.
    + intros [? ?]. eauto.
    + intros (? & d' & Hd & ?). injection Hd as <-. done.
Qed.

(** One turn of the scan either takes the record or leaves the variables
    as they are. *)
Lemma scan_step_joins (i : nat) (img1 : ImageInfo) (group : list (nat * ImageInfo))
    (processed : gmap nat bool) (jx : nat * ImageInfo) :
  scan_step i img1 (group, processed) jx
  = if joins i img1 processed jx
    then (group ++ [jx], <[jx.1 := true]> processed)
    else (group, processed).
Proof.
  destruct jx as [j img2]. unfold scan_step, joins, similarb. simpl.
  destruct (bool_decide (i = j)); [done|]. simpl.
  destruct (processed_at processed j); [done|]. simpl.
  destruct (eqb (IsExt img1) (IsExt img2)); [|done]. simpl.
  destruct (Distance img1 img2) as [d [e|]]; [done|].
  destruct (decide (d <= threshold)).
  - now rewrite bool_decide_eq_true_2.
  - now rewrite bool_decide_eq_false_2.
Qed.

Lemma processed_at_insert (processed : gmap nat bool) (j k : nat) :
  processed_at (<[j := true]> processed) k
  = bool_decide (j = k) || processed_at processed k.
Proof.
  unfold processed_at. destruct (decide (j = k)) as [->|Hjk].
  - now rewrite lookup_insert_eq, bool_decide_eq_true_2.
  - now rewrite lookup_insert_ne, bool_decide_eq_false_2.
Qed.

(** The whole scan, over records read at distinct indices: the group gains,
    in order, the records that join, and exactly their markers are set. *)
Lemma scan_spec (i : nat) (img1 : ImageInfo) (js : list (nat * ImageInfo))
    (group : list (nat * ImageInfo)) (processed : gmap nat bool) :
  NoDup js.*1 ->
  exists processed',
    foldl (scan_step i img1) (group, processed) js
    = (group ++ List.filter (joins i img1 processed) js, processed') /\
    forall k, processed_at processed' k
              = processed_at processed k ||
                bool_decide (k ∈ (List.filter (joins i img1 processed) js).*1).
Proof.
  revert group processed. induction js as [|jx js IH]; intros group processed Hnd.
  - exists processed. cbn [foldl List.filter]. rewrite app_nil_r. split; [done|].
    intros k. rewrite fmap_nil, bool_decide_eq_false_2 by apply not_elem_of_nil.
    now rewrite orb_false_r.
  - rewrite fmap_cons in Hnd. apply NoDup_cons in Hnd as [Hjx Hnd].
    cbn [foldl List.filter]. rewrite scan_step_joins.
    destruct (joins i img1 processed jx) eqn:Hj.
    + destruct (IH (group ++ [jx]) (<[jx.1 := true]> processed) Hnd)
        as (processed' & Hrun & Hmark).
      assert (List.filter (joins i img1 (<[jx.1 := true]> processed)) js
              = List.filter (joins i img1 processed) js) as Hsame.
      { apply List.filter_ext_in. intros jx' Hin. unfold joins.
        rewrite processed_at_insert.
        rewrite (bool_decide_eq_false_2 (jx.1 = jx'.1)); [done|].
        intros Heq. apply Hjx. rewrite Heq.
        apply list_elem_of_fmap_2. now apply list_elem_of_In. }
      rewrite Hsame in Hrun, Hmark.
      exists processed'. split; [now rewrite Hrun, <- app_assoc|].
      intros k. rewrite Hmark, processed_at_insert, fmap_cons.
      destruct (decide (jx.1 = k)) as [->|Hne].
      * rewrite bool_decide_eq_true_2 by done.
        rewrite (bool_decide_eq_true_2 (_ ∈ _ :: _)) by apply list_elem_of_here.
        now rewrite orb_true_r.
      * rewrite (bool_decide_eq_false_2 (jx.1 = k)) by done.
        simpl. f_equal. apply bool_decide_ext.
        rewrite elem_of_cons. split; [auto|]. intros [Heq|Hin]; [congruence|done].
    + apply (IH group processed Hnd).
Qed.

(** ** Grouping: the records with their indices *)

Lemma range_lookup (images : list ImageInfo) (n j : nat) (img : ImageInfo) :
  range images !! n = Some (j, img) <-> j = n /\ images !! n = Some img.
Proof.
  unfold range. rewrite list_lookup_imap.
  destruct (images !! n) as [x|]; simpl.
  - split; [intros [= <- <-]; done|]. intros [-> [= ->]]. done.
  - split; [discriminate|]. intros [_ ?]. discriminate.
Qed.

Lemma elem_of_range (images : list ImageInfo) (j : nat) (img : ImageInfo) :
  (j, img) ∈ range images <-> images !! j = Some img.
Proof.
  rewrite list_elem_of_lookup. split.
  - intros [n Hn]. apply range_lookup in Hn as [-> Hn]. done.
  - intros Hj. exists j. now apply range_lookup.
Qed.

Lemma range_indices (images : list ImageInfo) :
  (range images).*1 = seq 0 (length images).
Proof.
  unfold range. apply list_eq. intros n.
  rewrite list_lookup_fmap, list_lookup_imap.
  destruct (images !! n) as [x|] eqn:Hn; simpl.
  - apply lookup_lt_Some in Hn. now rewrite lookup_seq_lt.
  - apply lookup_ge_None in Hn. now rewrite lookup_seq_ge.
Qed.

Lemma range_NoDup (images : list ImageInfo) : NoDup (range images).*1.
Proof. rewrite range_indices. apply NoDup_seq. Qed.

Lemma elem_of_List_filter {A} (f : A -> bool) (l : list A) (x : A) :
  x ∈ List.filter f l <-> x ∈ l /\ f x = true.
Proof. rewrite !list_elem_of_In. apply filter_In. Qed.

Lemma List_filter_NoDup_fst {A B} (f : A * B -> bool) (l : list (A * B)) :
  NoDup l.*1 -> NoDup (List.filter f l).*1.
Proof.
  induction l as [|x l IH]; simpl; [done|].
  rewrite NoDup_cons. intros [Hx Hl]. destruct (f x); [|auto].
  rewrite fmap_cons. apply NoDup_cons. split; [|auto].
  intros Hin. apply Hx. apply list_elem_of_fmap in Hin as (y & -> & Hy).
  apply elem_of_List_filter in Hy as [Hy _]. now apply list_elem_of_fmap_2.
Qed.

(** ** Grouping: one seed *)

(** The group that the seed at index [n] collects when [processed] holds the
    markers on entry to its turn. *)
Lemma seed_step_fresh (images : list ImageInfo) (groups : list (list (nat * ImageInfo)))
    (processed : gmap nat bool) (n : nat) (img1 : ImageInfo) :
  processed_at processed n = false ->
  let taken := List.filter (joins n img1 (<[n := true]> processed)) (range images) in
  exists processed',
    seed_step images (groups, processed) (n, img1)
    = (if decide (1 < length ((n, img1) :: taken))%nat
       then groups ++ [(n, img1) :: taken] else groups, processed') /\
    forall k, processed_at processed' k
              = bool_decide (n = k) || processed_at processed k ||
                bool_decide (k ∈ taken.*1).
Proof.
  intros Hn taken. unfold seed_step. rewrite Hn. cbv zeta.
  destruct (scan_spec n img1 (range images) [(n, img1)] (<[n := true]> processed)
              (range_NoDup images)) as (processed' & -> & Hmark).
  exists processed'. split.
  - change ([(n, img1)] ++ ?l) with ((n, img1) :: l). fold taken.
    now destruct (decide (1 < length ((n, img1) :: taken))%nat).
  - intros k. now rewrite Hmark, processed_at_insert.
Qed.

(** What a record taken by the seed at [n] satisfies. *)
Lemma taken_spec (images : list ImageInfo) (processed : gmap nat bool)
    (n : nat) (img1 : ImageInfo) (jx : nat * ImageInfo) :
  jx ∈ List.filter (joins n img1 (<[n := true]> processed)) (range images) <->
  images !! jx.1 = Some jx.2 /\ n <> jx.1 /\
  processed_at processed jx.1 = false /\ similar img1 jx.2.
Proof.
  destruct jx as [j img2]. rewrite elem_of_List_filter, elem_of_range.
  unfold joins. simpl. rewrite !andb_true_iff, !negb_true_iff.
  rewrite processed_at_insert, similarb_spec, bool_decide_eq_false.
  destruct (decide (n = j)) as [->|Hne].
  - rewrite bool_decide_eq_true_2 by done. simpl. intuition discriminate.
  - rewrite (bool_decide_eq_false_2 (n = j)) by done. simpl. tauto.
Qed.

(** ** Grouping: the invariant of the outer loop *)

Lemma seeded_init (images : list ImageInfo) : seeded images 0 ([], ∅).
Proof.
  split; simpl.
  - intros k. unfold processed_at. rewrite lookup_empty. simpl.
    split; [discriminate|]. intros [Hk|Hk]; [lia|].
    now apply not_elem_of_nil in Hk.
  - intros m g Hm. discriminate.
  - constructor.
Qed.

Lemma joins_takes (images : list ImageInfo) (n : nat) (img1 : ImageInfo)
    (groups : list (list (nat * ImageInfo))) (processed : gmap nat bool) :
  (forall k, processed_at processed k = true <->
             (k < n)%nat \/ k ∈ (concat groups).*1) ->
  List.filter (joins n img1 (<[n := true]> processed)) (range images)
  = List.filter (takes n img1 groups) (range images).
Proof.
  intros Hmarks. apply List.filter_ext. intros [j img2].
  unfold joins, takes. simpl. f_equal. rewrite processed_at_insert.
  apply eq_true_iff_eq.
  rewrite !andb_true_iff, !negb_true_iff, orb_false_iff, !bool_decide_eq_false.
  rewrite Nat.ltb_lt, <- not_true_iff_false, Hmarks. split.
  - intros (Hne & _ & Hnot). split; [|tauto].
    destruct (decide (j < n)%nat); [tauto|lia].
  - intros (Hlt & Hnot). split; [lia|]. split; [lia|].
    intros [?|?]; [lia|done].
Qed.

Lemma seeded_step (images : list ImageInfo) (n : nat) (img1 : ImageInfo)
    (st : list (list (nat * ImageInfo)) * gmap nat bool) :
  seeded images n st -> images !! n = Some img1 ->
  seeded images (S n) (seed_step images st (n, img1)).
Proof.
  destruct st as [groups processed].
  intros [Hmarks Hgroups Hnd] Himg. simpl in Hmarks, Hgroups, Hnd.
  destruct (processed_at processed n) eqn:Hn.
  { (* the record was taken by an earlier seed *)
    unfold seed_step. rewrite Hn. split; simpl; try done.
    intros k. rewrite Hmarks. split; [intros [?|?]; [left; lia|by right]|].
    intros [Hk|?]; [|by right].
    destruct (decide (k = n)) as [->|]; [now apply Hmarks|left; lia]. }
  destruct (seed_step_fresh images groups processed n img1 Hn)
    as (processed' & -> & Hmark).
  rewrite (joins_takes images n img1 groups processed Hmarks) in Hmark |- *.
  set (taken := List.filter (takes n img1 groups) (range images)) in *.
  assert (Hseed : n ∉ (concat groups).*1).
  { intros Hin. assert (processed_at processed n = true) by (apply Hmarks; auto).
    congruence. }
  assert (Htaken : forall k, k ∈ taken.*1 -> (n < k)%nat /\ k ∉ (concat groups).*1).
  { intros k Hk. apply list_elem_of_fmap in Hk as (jx & -> & Hjx).
    apply elem_of_List_filter in Hjx as [_ Hjx]. unfold takes in Hjx.
    rewrite !andb_true_iff, negb_true_iff, bool_decide_eq_false, Nat.ltb_lt in Hjx.
    tauto. }
  destruct (decide (1 < length ((n, img1) :: taken))%nat) as [Hlen|Hlen].
  - split; simpl.
    + intros k. rewrite Hmark, !orb_true_iff, !bool_decide_eq_true, Hmarks.
      rewrite concat_app, fmap_app. simpl. rewrite app_nil_r.
      rewrite elem_of_app, elem_of_cons.
      split; [intros [[->|[?|?]]|?]|intros [?|[?|[->|?]]]]; try tauto; try lia.
    + intros m g Hm. destruct (decide (m < length groups)%nat) as [Hlt|Hge].
      * rewrite lookup_app_l in Hm by done. rewrite take_app_le by lia. auto.
      * apply lookup_lt_Some in Hm as Hlt. rewrite length_app in Hlt. simpl in Hlt.
        assert (m = length groups) as -> by lia.
        rewrite list_lookup_middle in Hm by done. injection Hm as <-.
        rewrite take_app_length. exists n, img1. done.
    + rewrite concat_app, fmap_app. simpl. rewrite app_nil_r.
      apply NoDup_app. split; [done|]. split.
      * intros k Hk. rewrite elem_of_cons. intros [->|Hin]; [done|].
        now apply Htaken in Hin.
      * apply NoDup_cons. split; [|apply List_filter_NoDup_fst, range_NoDup].
        intros Hin. apply Htaken in Hin. lia.
  - assert (taken = []) as Hnil by (destruct taken; [done|simpl in Hlen; lia]).
    split; simpl; try done.
    intros k. rewrite Hmark, Hnil, !orb_true_iff, !bool_decide_eq_true, Hmarks.
    rewrite fmap_nil, elem_of_nil.
    split; [intros [[->|[?|?]]|?]|intros [?|?]]; try tauto; try lia.
Qed.

Lemma seeded_prefix (images : list ImageInfo)
    (pre suf : list (nat * ImageInfo)) :
  range images = pre ++ suf ->
  seeded images (length pre) (foldl (seed_step images) ([], ∅) pre).
Proof.
  revert suf. induction pre as [|[i img1] pre IH] using rev_ind; intros suf Hrange.
  - apply seeded_init.
  - rewrite <- app_assoc in Hrange. simpl in Hrange.
    assert (range images !! length pre = Some (i, img1)) as Hi.
    { rewrite Hrange. now apply list_lookup_middle. }
    apply range_lookup in Hi as [-> Hi].
    rewrite foldl_app, length_app. simpl. rewrite Nat.add_1_r.
    apply seeded_step; [|done]. now apply (IH ((length pre, img1) :: suf)).
Qed.

Lemma group_loop_seeded (images : list ImageInfo) :
  seeded images (length images) (group_loop images).
Proof.
  unfold group_loop.
  replace (length images) with (length (range images))
    by (unfold range; apply length_imap).
  apply (seeded_prefix images (range images) []). now rewrite app_nil_r.
Qed.

(** ** Grouping: the groups that are returned *)

Lemma findSimilarIndexed_collected (images : list ImageInfo) (m : nat)
    (g : list (nat * ImageInfo)) :
  findSimilarIndexed images !! m = Some g ->
  collected images (take m (findSimilarIndexed images)) g.
Proof. destruct (group_loop_seeded images) as [_ Hgroups _]. apply Hgroups. Qed.

Lemma takes_spec (images : list ImageInfo) (i : nat) (seed : ImageInfo)
    (earlier : list (list (nat * ImageInfo))) (j : nat) (s : ImageInfo) :
  (j, s) ∈ List.filter (takes i seed earlier) (range images) <->
  images !! j = Some s /\ (i < j)%nat /\ (j ∉ (concat earlier).*1) /\
  similar seed s.
Proof.
  rewrite elem_of_List_filter, elem_of_range. unfold takes. simpl.
  rewrite !andb_true_iff, negb_true_iff, bool_decide_eq_false, Nat.ltb_lt.
  rewrite similarb_spec. tauto.
Qed.

Lemma concat_positions {A B} (groups : list (list (A * B))) :
  concat (map (map fst) groups) = (concat groups).*1.
Proof.
  induction groups as [|g groups IH]; simpl; [done|].
  now rewrite fmap_app, IH.
Qed.

(** C6. Every returned group is its seed, the first of its records in input
    order, followed by exactly the later records that are in no earlier group,
    are of the seed's kind and lie within the threshold of the seed: what
    decides membership is the distance to the seed alone, and a record that a
    seed passes over, one of another kind included, stays outside the groups
    made so far and so within reach of a later seed. *)
Theorem findSimilar_membership (images : list ImageInfo) (m : nat)
    (g : list (nat * ImageInfo)) :
  findSimilarIndexed images !! m = Some g ->
  exists i seed rest,
    g = (i, seed) :: rest /\ images !! i = Some seed /\
    forall j s,
      (j, s) ∈ rest <->
      images !! j = Some s /\ (i < j)%nat /\
      (j ∉ (concat (take m (findSimilarIndexed images))).*1) /\
      IsExt seed = IsExt s /\
      exists distance, Distance seed s = (distance, None) /\ distance <= threshold.
Proof.
  intros Hg. apply findSimilarIndexed_collected in Hg as (i & seed & Hi & -> & _).
  exists i, seed, (List.filter
                     (takes i seed (take m (findSimilarIndexed images)))
                     (range images)).
  split; [done|]. split; [done|]. intros j s. apply takes_spec.
Qed.

(** C7. Every returned group has more than one member; a seed that takes no
    record leaves no group, so records of which no two are similar give no
    group at all. *)
Theorem findSimilarGroups_no_singleton (images : list ImageInfo) :
  Forall (fun g => (1 < length g)%nat) (findSimilarGroups images) /\
  ((forall i j a b, (i < j)%nat -> images !! i = Some a -> images !! j = Some b ->
                    ~ similar a b) ->
   findSimilarGroups images = []).
Proof.
  unfold findSimilarGroups. split.
  - apply Forall_fmap, Forall_lookup. intros m g Hg. simpl.
    apply findSimilarIndexed_collected in Hg as (i & seed & _ & _ & Hlen).
    now rewrite length_map.
  - intros Hfar. destruct (findSimilarIndexed images) as [|g gs] eqn:Hgroups; [done|].
    exfalso.
    destruct (findSimilarIndexed_collected images 0 g) as (i & seed & Hi & -> & Hlen).
    { now rewrite Hgroups. }
    destruct (List.filter _ _) as [|[j s] rest] eqn:Htaken; [simpl in Hlen; lia|].
    assert ((j, s) ∈ List.filter
              (takes i seed (take 0 (findSimilarIndexed images))) (range images))
      as Hjs by (rewrite Htaken; apply list_elem_of_here).
    apply takes_spec in Hjs as (Hj & Hlt & _ & Hsim).
    exact (Hfar i j seed s Hlt Hi Hj Hsim).
Qed.

(** C10. The returned groups are pairwise disjoint.  With each member at the
    position of the input it was read from, every member is the record at its
    position, and no position occurs twice in all the groups together: not
    in two groups and not twice in one. *)
Theorem findSimilarGroups_disjoint (images : list ImageInfo) :
  let positions := map (map fst) (findSimilarIndexed images) in
  Forall2 (Forall2 (fun pos img => images !! pos = Some img))
          positions (findSimilarGroups images) /\
  NoDup (concat positions).
Proof.
  split.
  - unfold findSimilarGroups. apply Forall2_fmap, Forall_Forall2_diag, Forall_lookup.
    intros m g Hg. apply Forall2_fmap, Forall_Forall2_diag, Forall_forall.
    intros [j s] Hjs. simpl.
    apply findSimilarIndexed_collected in Hg as (i & seed & Hi & -> & _).
    apply elem_of_cons in Hjs as [[= -> ->]|Hjs]; [done|].
    now apply takes_spec in Hjs as (Hj & _).
  - rewrite concat_positions.
    now destruct (group_loop_seeded images) as [_ _ Hnd].
Qed.

(** ** Grouping: the runs of the machine *)

Lemma step_deterministic (images : list ImageInfo) (m m1 m2 : @machine HashPtr ExtHashPtr) :
  step images m m1 -> step images m m2 -> m1 = m2.
Proof.
  intros H1 H2.
  inversion H1; subst; inversion H2; subst; simplify_eq; try done;
    solve [ exfalso; intuition congruence
          | exfalso;
            match goal with
            | Ha : ?x = (_, None), Hb : ?x = (_, None) |- _ =>
                rewrite Ha in Hb; injection Hb as ->
            end; lia ].
Qed.

Lemma step_AtReturn (images : list ImageInfo)
    (groups : list (list (nat * ImageInfo))) (processed : gmap nat bool)
    (m : @machine HashPtr ExtHashPtr) :
  ~ step images (mkMachine groups processed AtReturn) m.
Proof. intros H. inversion H. Qed.

Lemma run_deterministic (images : list ImageInfo) (m : @machine HashPtr ExtHashPtr)
    (groups1 groups2 : list (list (nat * ImageInfo))) (processed1 processed2 : gmap nat bool) :
  rtc (step images) m (mkMachine groups1 processed1 AtReturn) ->
  rtc (step images) m (mkMachine groups2 processed2 AtReturn) ->
  groups1 = groups2 /\ processed1 = processed2.
Proof.
  intros Hrun1. revert groups2 processed2.
  remember (mkMachine groups1 processed1 AtReturn) as mf eqn:Hmf.
  induction Hrun1 as [m|m m' mf Hstep Hrun1 IH];
    intros groups2 processed2 Hrun2; subst.
  - apply rtc_inv in Hrun2 as [[= <- <-]|(m' & Hstep & _)]; [done|].
    now apply step_AtReturn in Hstep.
  - apply rtc_inv in Hrun2 as [->|(m'' & Hstep' & Hrun2)].
    + now apply step_AtReturn in Hstep.
    + rewrite <- (step_deterministic images m m' m'' Hstep Hstep') in Hrun2.
      now apply IH.
Qed.

Lemma range_drop (images : list ImageInfo) (j : nat) (img : ImageInfo) :
  images !! j = Some img ->
  drop j (range images) = (j, img) :: drop (S j) (range images).
Proof. intros Hj. apply drop_S. now apply range_lookup. Qed.

(** One turn of the inner loop is one step of the machine. *)
Lemma scan_step_step (images : list ImageInfo)
    (groups : list (list (nat * ImageInfo))) (processed : gmap nat bool)
    (i : nat) (img1 : ImageInfo) (group : list (nat * ImageInfo))
    (j : nat) (img2 : ImageInfo) :
  images !! j = Some img2 ->
  step images
    (mkMachine groups processed (AtInner i img1 group j))
    (mkMachine groups (scan_step i img1 (group, processed) (j, img2)).2
       (AtInner i img1 (scan_step i img1 (group, processed) (j, img2)).1 (S j))).
Proof.
  intros Hj. unfold scan_step.
  destruct (decide (i = j)) as [Hij|Hij].
  { rewrite bool_decide_eq_true_2 by done.
    eapply step_inner_continue; [done|by left]. }
  rewrite bool_decide_eq_false_2 by done.
  destruct (processed_at processed j) eqn:Hp.
  { eapply step_inner_continue; [done|by right]. }
  destruct (eqb (IsExt img1) (IsExt img2)) eqn:Hkind; simpl.
  2:{ eapply step_inner_kind; try done. now apply eqb_false_iff. }
  apply eqb_prop in Hkind.
  destruct (Distance img1 img2) as [d [e|]] eqn:Hd.
  { eapply step_inner_err; done. }
  destruct (decide (d <= threshold)).
  - eapply step_inner_add; done.
  - eapply step_inner_far; try done. lia.
Qed.

Lemma scan_run (images : list ImageInfo)
    (groups : list (list (nat * ImageInfo))) (i : nat) (img1 : ImageInfo)
    (k j : nat) (group : list (nat * ImageInfo)) (processed : gmap nat bool) :
  length images = (j + k)%nat ->
  rtc (step images)
    (mkMachine groups processed (AtInner i img1 group j))
    (mkMachine groups
       (foldl (scan_step i img1) (group, processed) (drop j (range images))).2
       (AtInner i img1
          (foldl (scan_step i img1) (group, processed) (drop j (range images))).1
          (length images))).
Proof.
  revert j group processed. induction k as [|k IH]; intros j group processed Hlen.
  - rewrite drop_ge by (unfold range; rewrite length_imap; lia). simpl.
    replace (length images) with j by lia. apply rtc_refl.
  - destruct (lookup_lt_is_Some_2 images j ltac:(lia)) as [img2 Hj].
    rewrite (range_drop images j img2 Hj). cbn [foldl].
    eapply rtc_l; [apply (scan_step_step images groups processed i img1 group j img2 Hj)|].
    destruct (scan_step i img1 (group, processed) (j, img2)) as [group' processed'].
    apply IH. lia.
Qed.

Lemma seed_run (images : list ImageInfo) (k i : nat)
    (groups : list (list (nat * ImageInfo))) (processed : gmap nat bool) :
  length images = (i + k)%nat ->
  rtc (step images)
    (mkMachine groups processed (AtOuter i))
    (mkMachine
       (foldl (seed_step images) (groups, processed) (drop i (range images))).1
       (foldl (seed_step images) (groups, processed) (drop i (range images))).2
       AtReturn).
Proof.
  revert i groups processed. induction k as [|k IH]; intros i groups processed Hlen.
  - rewrite drop_ge by (unfold range; rewrite length_imap; lia). simpl.
    apply rtc_once, step_outer_end. apply lookup_ge_None. lia.
  - destruct (lookup_lt_is_Some_2 images i ltac:(lia)) as [img1 Hi].
    rewrite (range_drop images i img1 Hi). cbn [foldl].
    unfold seed_step at 2 4.
    destruct (processed_at processed i) eqn:Hp.
    + eapply rtc_l; [eapply step_outer_continue; done|]. apply IH. lia.
    + eapply rtc_l; [eapply step_outer_seed; done|].
      eapply rtc_trans.
      { apply (scan_run images groups i img1 (length images) 0). lia. }
      rewrite drop_0.
      destruct (foldl (scan_step i img1) _ (range images)) as [group' processed'].
      eapply rtc_l.
      { apply step_inner_end. apply lookup_ge_None. simpl. lia. }
      simpl. destruct (decide (1 < length group')%nat); apply IH; lia.
Qed.

Lemma findSimilarGroups_returns (images : list ImageInfo) :
  returns images (findSimilarGroups images).
Proof.
  exists (group_loop images).1, (group_loop images).2. split; [|done].
  apply (seed_run images (length images) 0 [] ∅). lia.
Qed.

(** C9. Grouping is deterministic: the loops run to their end on every
    input, returning the groups that [findSimilarGroups] computes, and any two
    runs over the same records in the same order with the same threshold
    return the same groups. *)
Theorem findSimilar_deterministic (images : list ImageInfo) :
  returns images (findSimilarGroups images) /\
  (forall out1 out2, returns images out1 -> returns images out2 -> out1 = out2).
Proof.
  split.
  - apply findSimilarGroups_returns.
  - intros out1 out2 (groups1 & processed1 & Hrun1 & ->)
                     (groups2 & processed2 & Hrun2 & ->).
    now destruct (run_deterministic images _ _ _ _ _ Hrun1 Hrun2) as [-> _].
Qed.

End GroupingFacts.

(** ** Grouping on the example hashes *)

(** Seed-based, not transitive: [B8] is within 3 of both [A8] and [C8], but
    [C8] is 6 away from the seed [A8] and its own group is a singleton. *)
Example findSimilarGroups_not_transitive :
  findSimilarGroups Hamming8 Hamming8 3 [A8; B8; C8] = [[A8; B8]].
Proof. vm_compute. reflexivity. Qed.

(** Records of another kind are passed over and grouped by a later seed. *)
Example findSimilarGroups_two_kinds :
  findSimilarGroups Hamming8 Hamming8 3 [A8; X8; B8; Y8] = [[A8; B8]; [X8; Y8]].
Proof. vm_compute. reflexivity. Qed.

Lemma findSimilar_membership_witness :
  exists i seed rest,
    [(1%nat, X8); (3%nat, Y8)] = (i, seed) :: rest /\
    [A8; X8; B8; Y8] !! i = Some seed /\
    forall j s,
      (j, s) ∈ rest <->
      [A8; X8; B8; Y8] !! j = Some s /\ (i < j)%nat /\
      (j ∉ (concat (take 1 (findSimilarIndexed Hamming8 Hamming8 3
                              [A8; X8; B8; Y8]))).*1) /\
      IsExt seed = IsExt s /\
      exists distance,
        Distance Hamming8 Hamming8 seed s = (distance, None) /\ distance <= 3.
Proof.
  apply (findSimilar_membership Hamming8 Hamming8 3 [A8; X8; B8; Y8] 1
           [(1%nat, X8); (3%nat, Y8)]).
  vm_compute. reflexivity.
Defined.

(** * Further properties *)

(** ** [nextMultipleOf2] *)

(** X1. [nextMultipleOf2] returns an even [uint]: the least even number that
    is at least [x], except that the largest [uint] wraps around to 0. *)
Theorem nextMultipleOf2_even (x : Z) :
  0 <= x < 2 ^ 64 ->
  0 <= nextMultipleOf2 x < 2 ^ 64 /\
  nextMultipleOf2 x mod 2 = 0 /\
  (x < 2 ^ 64 - 1 -> rounded_up_to_even x (nextMultipleOf2 x)) /\
  (x = 2 ^ 64 - 1 -> nextMultipleOf2 x = 0).
Proof.
  intros Hx. unfold nextMultipleOf2, GoInt.uadd, GoInt.to_uint.
  pose proof (Z.mod_pos_bound x 2 ltac:(lia)) as Hmod.
  pose proof (Z.div_mod x 2 ltac:(lia)) as Hdm.
  destruct (decide (x mod 2 = 0)) as [Heven|Hodd].
  - split; [lia|]. split; [done|]. split; [|lia].
    intros _. replace x with (x + x mod 2) at 2 by lia.
    apply rounded_up_to_even_intro.
  - destruct (decide (x = 2 ^ 64 - 1)) as [->|Hne].
    + split; [done|]. split; [done|]. split; [lia|done].
    + rewrite Z.mod_small by lia. split; [lia|]. split.
      * replace (x + 1) with (1 * 2 + (x - 1)) by lia.
        rewrite Z.add_comm, Z.mod_add by lia.
        apply Z.mod_divide; [lia|]. exists (x / 2). lia.
      * split; [|lia]. intros _. replace (x + 1) with (x + x mod 2) by lia.
        apply rounded_up_to_even_intro.
Qed.

Lemma nextMultipleOf2_even_witness :
  0 <= nextMultipleOf2 7 < 2 ^ 64 /\
  nextMultipleOf2 7 mod 2 = 0 /\
  (7 < 2 ^ 64 - 1 -> rounded_up_to_even 7 (nextMultipleOf2 7)) /\
  (7 = 2 ^ 64 - 1 -> nextMultipleOf2 7 = 0).
Proof. apply (nextMultipleOf2_even 7). lia. Defined.

(** ** More on [bitsToBytes] *)

Lemma bits_above_range (a n : Z) :
  0 <= n -> (forall p, n <= p -> Z.testbit a p = false) -> 0 <= a < 2 ^ n.
Proof.
  intros Hn Hhigh. assert (a = a mod 2 ^ n) as ->.
  { apply Z.bits_inj'. intros p Hp. destruct (decide (p < n)).
    - now rewrite Z.mod_pow2_bits_low.
    - rewrite Z.mod_pow2_bits_high by lia. apply Hhigh. lia. }
  apply Z.mod_pos_bound. apply Z.pow_pos_nonneg; lia.
Qed.

Lemma packed_words (bs : list bool) :
  Forall (fun w => 0 <= w < 2 ^ 64) (foldl bitsToBytes_step ([], 0, 0) bs).1.1.
Proof.
  induction bs as [|bit bs IH] using rev_ind; [constructor|].
  rewrite foldl_app. simpl. pose proof (packed_foldl bs) as Hpacked.
  destruct (foldl bitsToBytes_step ([], 0, 0) bs) as [[result cw] bp].
  destruct Hpacked as [Hpos _ Hhigh _]. simpl in *.
  unfold bitsToBytes_step. rewrite uadd_small by lia.
  destruct (decide (64 <= bp + 1)); simpl; [|done].
  apply Forall_app. split; [done|]. constructor; [|constructor].
  apply bits_above_range; [lia|]. intros p Hp.
  destruct bit; [|apply Hhigh; lia].
  rewrite shl64_one, Z.lor_spec, Z.pow2_bits_eqb, Hhigh by lia.
  destruct (Z.eqb_spec bp p); [lia|done].
Qed.

Lemma bitsToBytes_nth_bit (bs : list bool) (i : nat) (b : bool) :
  bs !! i = Some b ->
  Z.testbit (nth (i / 64) (bitsToBytes bs) 0) (Z.of_nat (i mod 64)) = b.
Proof.
  intros Hi. unfold bitsToBytes. pose proof (packed_foldl bs) as H.
  destruct (foldl bitsToBytes_step ([], 0, 0) bs) as [[result cw] bp].
  destruct H as [Hpos Hlen Hhigh Hbit]. simpl in *.
  pose proof (Nat.div_mod_eq i 64) as Hdm.
  pose proof (Nat.mod_upper_bound i 64 ltac:(lia)) as Hp.
  set (k := (i / 64)%nat) in *. set (p := (i mod 64)%nat) in *.
  rewrite Hdm in Hi. apply lookup_lt_Some in Hi as Hlt.
  rewrite <- (Hbit k p b Hp Hi).
  destruct (decide (0 < bp)); [done|].
  assert (k < length result)%nat as Hk by lia.
  now rewrite app_nth1.
Qed.

Lemma bitsToBytes_range (bs : list bool) :
  Forall (fun w => 0 <= w < 2 ^ 64) (bitsToBytes bs).
Proof.
  unfold bitsToBytes. pose proof (packed_foldl bs) as Hpacked.
  pose proof (packed_words bs) as Hwords.
  destruct (foldl bitsToBytes_step ([], 0, 0) bs) as [[result cw] bp].
  destruct Hpacked as [Hpos _ Hhigh _]. simpl in *.
  destruct (decide (0 < bp)); [|done].
  apply Forall_app. split; [done|]. constructor; [|constructor].
  apply bits_above_range; [lia|]. intros p Hp. apply Hhigh. lia.
Qed.

Lemma bitsToBytes_clear (bs : list bool) (k : nat) (w p : Z) :
  bitsToBytes bs !! k = Some w ->
  Z.of_nat (length bs) <= 64 * Z.of_nat k + p ->
  Z.testbit w p = false.
Proof.
  unfold bitsToBytes. pose proof (packed_foldl bs) as Hpacked.
  pose proof (packed_words bs) as Hwords.
  destruct (foldl bitsToBytes_step ([], 0, 0) bs) as [[result cw] bp].
  destruct Hpacked as [Hpos Hlen Hhigh _]. simpl in *.
  intros Hw Hp.
  assert (forall v, result !! k = Some v -> Z.testbit v p = false) as Hfull.
  { intros v Hv. apply lookup_lt_Some in Hv as Hk.
    pose proof (Forall_lookup_1 _ _ _ _ Hwords Hv) as Hrange. simpl in Hrange.
    rewrite <- (Z.mod_small v (2 ^ 64)) by done.
    apply Z.mod_pow2_bits_high. lia. }
  destruct (decide (0 < bp)); [|now apply Hfull].
  destruct (decide (k < length result)%nat) as [Hk|Hk].
  - rewrite lookup_app_l in Hw by done. now apply Hfull.
  - apply lookup_lt_Some in Hw as Hlt. rewrite length_app in Hlt. simpl in Hlt.
    assert (k = length result) as -> by lia.
    rewrite list_lookup_middle in Hw by done. injection Hw as <-.
    apply Hhigh. lia.
Qed.

(** X2. [bitsToBytes] returns [ceil(n / 64)] words for [n] bits, none for no
    bits, and every word is within [uint64]. *)
Theorem bitsToBytes_words (bs : list bool) :
  Z.of_nat (length (bitsToBytes bs)) = (Z.of_nat (length bs) + 63) / 64 /\
  (bitsToBytes bs = [] <-> bs = []) /\
  Forall (fun w => 0 <= w < 2 ^ 64) (bitsToBytes bs).
Proof.
  pose proof (bitsToBytes_length bs) as Hlen. split; [done|].
  split; [|apply bitsToBytes_range].
  split; intros Heq; [|now subst bs].
  rewrite Heq in Hlen. simpl in Hlen. destruct bs as [|b bs]; [done|].
  exfalso. simpl length in Hlen.
  pose proof (Z.div_le_lower_bound (Z.of_nat (S (length bs)) + 63) 64 1
                ltac:(lia) ltac:(lia)). lia.
Qed.

(** X3. The payload holds nothing past the last emitted bit: read at any
    index [i] that is not below the number of bits, bit [i mod 64] of word
    [i / 64] is clear, so the unused high bits of the last word are zero. *)
Theorem bitsToBytes_padding_zero (bs : list bool) (i : nat) :
  (length bs <= i)%nat ->
  Z.testbit (nth (i / 64) (bitsToBytes bs) 0) (Z.of_nat (i mod 64)) = false.
Proof.
  intros Hi. pose proof (Nat.div_mod_eq i 64) as Hdm.
  destruct (bitsToBytes bs !! (i / 64)%nat) as [w|] eqn:Hw.
  - rewrite (nth_lookup_Some _ _ _ _ Hw).
    apply (bitsToBytes_clear bs (i / 64) w); [done|]. lia.
  - rewrite nth_overflow by now apply lookup_ge_None. apply Z.bits_0.
Qed.

Lemma bitsToBytes_padding_zero_witness :
  Z.testbit (nth (3 / 64) (bitsToBytes [true; false; true]) 0)
            (Z.of_nat (3 mod 64)) = false.
Proof. apply (bitsToBytes_padding_zero [true; false; true] 3). simpl. lia. Defined.

(** X4. The payload can be read back: unpacking as many bits as were packed
    gives the bits again, so two bit sequences of one length with the same
    payload are equal. *)
Theorem unpack_bitsToBytes (bs : list bool) :
  unpack (length bs) (bitsToBytes bs) = bs /\
  (forall bs', length bs' = length bs -> bitsToBytes bs' = bitsToBytes bs ->
               bs' = bs).
Proof.
  assert (forall l, unpack (length l) (bitsToBytes l) = l) as Hback.
  { intros l. apply list_eq. intros i. unfold unpack.
    rewrite list_lookup_fmap.
    destruct (l !! i) as [b|] eqn:Hi.
    - apply lookup_lt_Some in Hi as Hlt. rewrite lookup_seq_lt by done. simpl.
      f_equal. now apply bitsToBytes_nth_bit.
    - apply lookup_ge_None in Hi. now rewrite lookup_seq_ge. }
  split; [apply Hback|].
  intros bs' Hlen Heq. rewrite <- (Hback bs'), <- (Hback bs). now rewrite Hlen, Heq.
Qed.

(** ** More on [doubleGradientHashBits] *)

Lemma run_loop_None {S} (F : Z -> S -> option S) (l : list Z) (i : Z) (s : S) :
  i ∈ l -> (forall s0, F i s0 = None) -> run_loop F l s = None.
Proof.
  intros Hi HF. revert s. induction l as [|j l IH]; intros s.
  - now apply not_elem_of_nil in Hi.
  - simpl. destruct (F j s) as [s'|] eqn:Hj; [|done].
    apply elem_of_cons in Hi as [->|Hi]; [congruence|]. now apply IH.
Qed.

Lemma index_past_end {A} (s : list A) (i : Z) :
  Z.of_nat (length s) <= i -> index s i = None.
Proof.
  intros Hi. unfold index. rewrite decide_True by lia.
  apply lookup_ge_None. lia.
Qed.

Lemma for_range_None {S} (F : Z -> S -> option S) (lo hi i : Z) (s : S) :
  lo <= i < hi -> (forall s0, F i s0 = None) -> for_range lo hi F s = None.
Proof.
  intros Hi HF. apply (run_loop_None F _ i); [|done]. apply elem_of_seqZ. lia.
Qed.

(** X5. A slice with fewer than [width * height] samples makes
    [doubleGradientHashBits] panic, whenever there is anything to compare
    (more than one column or more than one row): with an index out of range,
    or before that in [make] when the bits to reserve pass [maxAlloc]. *)
Theorem doubleGradientHashBits_short (pixels : list Z) (width height : Z) :
  1 <= width -> 1 <= height -> 2 <= width \/ 2 <= height ->
  2 * (width * height) <= GoInt.int_max ->
  Z.of_nat (length pixels) < width * height ->
  doubleGradientHashBits pixels width height = None.
Proof.
  intros Hw Hh Hsome Hmax Hshort.
  assert (forall z, 0 <= z <= 2 * (width * height) -> GoInt.in_int z) as Hin.
  { intros z Hz. apply (in_int_below z (2 * (width * height))); lia. }
  unfold doubleGradientHashBits.
  rewrite !mul_small, add_small by (apply Hin; nia).
  unfold make_cap.
  match goal with
  | |- context [decide ?fits] => destruct (decide fits) as [_|_]; [|done]
  end.
  simpl.
  destruct (decide (2 <= width)) as [Hw2|Hw1].
  - (* the last comparison of the last row reads past the end *)
    match goal with |- ?first ≫= _ = None => assert (first = None) as -> end;
      [|done].
    apply (for_range_None _ _ _ (height - 1)); [lia|]. intros bits.
    apply (for_range_None _ _ _ (width - 1)); [lia|]. intros bits'.
    rewrite mul_small by (apply Hin; nia). rewrite add_small by (apply Hin; nia).
    replace ((height - 1) * width + (width - 1)) with (width * height - 1) by ring.
    rewrite (index_past_end pixels (width * height - 1)) by lia. done.
  - (* one column: the horizontal pass compares nothing *)
    assert (width = 1) as -> by lia.
    match goal with |- ?first ≫= _ = None => destruct first as [bits|] end;
      [|done].
    simpl.
    apply (for_range_None _ _ _ 0); [lia|]. intros bits0.
    apply (for_range_None _ _ _ (height - 1)); [lia|]. intros bits'.
    rewrite (mul_small (height - 1) 1) by (apply Hin; lia).
    rewrite (add_small ((height - 1) * 1) 0) by (apply Hin; lia).
    rewrite (index_past_end pixels ((height - 1) * 1 + 0)) by lia. done.
Qed.

Lemma doubleGradientHashBits_short_witness :
  doubleGradientHashBits [1; 2; 3] 2 2 = None.
Proof.
  apply (doubleGradientHashBits_short [1; 2; 3] 2 2); try lia.
  - unfold GoInt.int_max. lia.
  - simpl. lia.
Defined.

Lemma bitsToBytes_all_false (bs : list bool) :
  Forall (fun b => b = false) bs -> Forall (fun w => w = 0) (bitsToBytes bs).
Proof.
  intros Hfalse. apply Forall_lookup. intros k w Hw.
  pose proof (Forall_lookup_1 _ _ _ _ (bitsToBytes_range bs) Hw) as Hw64.
  simpl in Hw64.
  apply Z.bits_inj'. intros p Hp. rewrite Z.bits_0.
  destruct (decide (p < 64)) as [Hlow|Hhigh].
  2:{ rewrite <- (Z.mod_small w (2 ^ 64)) by done.
      apply Z.mod_pow2_bits_high. lia. }
  destruct (decide (Z.of_nat (length bs) <= 64 * Z.of_nat k + p)) as [Hpad|Hin].
  { now apply (bitsToBytes_clear bs k w p). }
  set (i := (64 * k + Z.to_nat p)%nat).
  destruct (lookup_lt_is_Some_2 bs i ltac:(lia)) as [b Hb].
  pose proof (Forall_lookup_1 _ _ _ _ Hfalse Hb) as Hbf. simpl in Hbf. subst b.
  pose proof (bitsToBytes_nth_bit bs i false Hb) as Hbit.
  assert ((i / 64)%nat = k) as Hk.
  { subst i. symmetry. apply (Nat.div_unique _ 64 k (Z.to_nat p)); lia. }
  assert ((i mod 64)%nat = Z.to_nat p) as Hm.
  { subst i. symmetry. apply (Nat.mod_unique _ 64 k (Z.to_nat p)); lia. }
  rewrite Hk, Hm, (nth_lookup_Some _ _ _ _ Hw), Z2Nat.id in Hbit by lia. done.
Qed.

(** X6. Ties give [false]: on a slice of [width * height] equal samples every
    bit of the signature is [false] and every word of its payload is 0. *)
Theorem doubleGradientHashBits_uniform (pixels : list Z) (width height v : Z) :
  0 <= width -> 0 <= height -> 2 * (width * height) <= maxAlloc ->
  Z.of_nat (length pixels) = width * height ->
  Forall (fun sample => sample = v) pixels ->
  exists hashBits,
    doubleGradientHashBits pixels width height = Some hashBits /\
    Forall (fun b => b = false) hashBits /\
    Forall (fun w => w = 0) (bitsToBytes hashBits).
Proof.
  intros Hw Hh Hmax Hlen Hsame.
  assert (Forall (fun b => b = false)
            (gradient_reference (fun _ _ => v) width height)) as Hfalse.
  { unfold gradient_reference, horizontal_pass, vertical_pass.
    apply Forall_app. split; apply Forall_bind, Forall_forall; intros a _;
      apply Forall_bind, Forall_forall; intros c _;
      (constructor; [|constructor]); apply bool_decide_eq_false_2; lia. }
  exists (gradient_reference (fun _ _ => v) width height).
  split; [|split; [done|now apply bitsToBytes_all_false]].
  apply doubleGradientHashBits_emits; try done.
  intros y x Hy Hx. unfold index. rewrite decide_True by nia.
  destruct (lookup_lt_is_Some_2 pixels (Z.to_nat (y * width + x)) ltac:(nia))
    as [sample Hs].
  rewrite Hs. f_equal. exact (Forall_lookup_1 _ _ _ _ Hsame Hs).
Qed.

Lemma doubleGradientHashBits_uniform_witness :
  exists hashBits,
    doubleGradientHashBits (replicate 6 9) 3 2 = Some hashBits /\
    Forall (fun b => b = false) hashBits /\
    Forall (fun w => w = 0) (bitsToBytes hashBits).
Proof.
  apply (doubleGradientHashBits_uniform (replicate 6 9) 3 2 9); try lia.
  - unfold maxAlloc. lia.
  - reflexivity.
  - repeat constructor.
Defined.

(** ** Loops whose invariant follows the counter *)




(** ** More on [DoubleGradientHash] *)

Section SamplingMore.

Context {Image Color : Type} `{!Imaging Image Color}.



(** X8. An odd requested width or height gives the same result as the next
    even one. *)
Theorem DoubleGradientHash_odd_size (img : Image) (n other : Z) :
  0 <= n < 2 ^ 31 - 1 -> n mod 2 = 1 ->
  DoubleGradientHash img n other = DoubleGradientHash img (n + 1) other /\
  DoubleGradientHash img other n = DoubleGradientHash img other (n + 1).
Proof.
  intros Hn Hodd.
  assert (GoInt.to_int (nextMultipleOf2 (GoInt.to_uint n))
          = GoInt.to_int (nextMultipleOf2 (GoInt.to_uint (n + 1)))) as Hsame.
  { rewrite !rounded_dimension by lia.
    replace (n + 1) with (n - 1 + 1 * 2) at 2 by lia.
    rewrite Z.mod_add by lia.
    replace (n - 1) with (n + (-1) * 2 + 1) by lia.
    pose proof (Z.div_mod n 2 ltac:(lia)) as Hdm.
    replace ((n + -1 * 2 + 1) mod 2) with 0; [lia|].
    symmetry. apply Z.mod_divide; [lia|]. exists (n / 2). lia. }
  unfold DoubleGradientHash. now rewrite Hsame.
Qed.

End SamplingMore.


Lemma DoubleGradientHash_odd_size_witness :
  DoubleGradientHash ramp_image 7 8 = DoubleGradientHash ramp_image (7 + 1) 8 /\
  DoubleGradientHash ramp_image 8 7 = DoubleGradientHash ramp_image 8 (7 + 1).
Proof. apply (DoubleGradientHash_odd_size ramp_image 7 8); [lia|reflexivity]. Defined.

(** ** More on [ToBase64] *)

Lemma ToBase64_run (h : ExtImageHash) :
  0 <= bits h <= GoInt.int_max ->
  64 * Z.of_nat (length (hash h)) <= GoInt.int_max ->
  ToBase64 h
  = Some (EncodeToString
            (take (Z.to_nat ((bits h + 7) / 8)) (payload_bytes (hash h)))).
Proof.
  intros Hbits Hmax.
  pose proof (Z.div_mod (bits h) 8 ltac:(lia)) as Hdm.
  pose proof (Z.mod_pos_bound (bits h) 8 ltac:(lia)) as Hmod.
  pose proof (Z.div_mod (bits h + 7) 8 ltac:(lia)) as Hdm7.
  pose proof (Z.mod_pos_bound (bits h + 7) 8 ltac:(lia)) as Hmod7.
  assert (forall z, 0 <= z <= GoInt.int_max -> GoInt.in_int z) as Hin.
  { intros z Hz. unfold GoInt.in_int, GoInt.int_min. lia. }
  unfold ToBase64. rewrite hashBytes_spec, app_nil_l, payload_bytes_length.
  rewrite mul_small by (apply Hin; lia).
  destruct (decide (bits h < 8 * Z.of_nat (length (hash h)) * 8)) as [Hlt|Hge].
  - unfold GoInt.div, GoInt.rem.
    rewrite Z.quot_div_nonneg, Z.rem_mod_nonneg by lia.
    rewrite !to_int_small by (apply Hin; lia).
    assert ((if decide (bits h mod 8 <> 0)
             then GoInt.add (bits h / 8) 1 else bits h / 8)
            = (bits h + 7) / 8) as ->.
    { destruct (decide (bits h mod 8 <> 0)).
      - rewrite add_small by (apply Hin; lia). lia.
      - lia. }
    unfold slice_to. rewrite payload_bytes_length, decide_True by lia. done.
  - simpl. rewrite take_ge; [done|].
    pose proof (payload_bytes_length (hash h)). lia.
Qed.

(** X9. [ToBase64] does not panic on a non-negative bit count, whatever the
    payload: it encodes [ceil(bits / 8)] bytes, or the whole payload when the
    bit count reaches past it. *)
Theorem ToBase64_nonnegative (h : ExtImageHash) :
  0 <= bits h <= GoInt.int_max ->
  64 * Z.of_nat (length (hash h)) <= GoInt.int_max ->
  exists s,
    ToBase64 h = Some s /\
    Z.of_nat (String.length s)
    = (4 * Z.min ((bits h + 7) / 8) (8 * Z.of_nat (length (hash h))) + 2) / 3 /\
    (64 * Z.of_nat (length (hash h)) <= bits h ->
     s = EncodeToString (payload_bytes (hash h))).
Proof.
  intros Hbits Hmax. eexists. split; [now apply ToBase64_run|].
  pose proof (Z.div_mod (bits h + 7) 8 ltac:(lia)) as Hdm7.
  pose proof (Z.mod_pos_bound (bits h + 7) 8 ltac:(lia)) as Hmod7.
  pose proof (payload_bytes_length (hash h)) as Hlen.
  split.
  - rewrite EncodeToString_length, length_take, Nat2Z.inj_min, Hlen.
    do 3 f_equal. lia.
  - intros Hall. rewrite take_ge; [done|]. lia.
Qed.

Lemma ToBase64_nonnegative_witness :
  exists s,
    ToBase64 (NewExtImageHash [255] AHash 100) = Some s /\
    Z.of_nat (String.length s)
    = (4 * Z.min ((100 + 7) / 8) (8 * Z.of_nat (length [255])) + 2) / 3 /\
    (64 * Z.of_nat (length [255]) <= 100 ->
     s = EncodeToString (payload_bytes [255])).
Proof.
  apply (ToBase64_nonnegative (NewExtImageHash [255] AHash 100)).
  - simpl. unfold GoInt.int_max. lia.
  - simpl. unfold GoInt.int_max. lia.
Defined.

Section SamplingBase64.

Context {Image Color : Type} `{!Imaging Image Color}.


End SamplingBase64.


Example DoubleGradientHashToBase64_ramp_image :
  DoubleGradientHashToBase64 ramp_image 8 8 = Some ("7u4OAAA", None).
Proof. vm_compute. reflexivity. Qed.

(** ** More on the grouping *)

Lemma seq_sorted (start n : nat) : StronglySorted lt (seq start n).
Proof.
  revert start. induction n as [|n IH]; intros start; simpl; [constructor|].
  apply StronglySorted_cons. split; [|apply IH].
  apply Forall_seq. intros j Hj. lia.
Qed.

Lemma List_filter_sorted_fst {B} (f : nat * B -> bool) (l : list (nat * B)) :
  StronglySorted lt l.*1 -> StronglySorted lt (List.filter f l).*1.
Proof.
  induction l as [|x l IH]; [done|].
  rewrite fmap_cons, StronglySorted_cons. intros [Hx Hl].
  cbn [List.filter]. destruct (f x); [|auto].
  rewrite fmap_cons. apply StronglySorted_cons. split; [|auto].
  apply Forall_forall. intros k Hk.
  apply list_elem_of_fmap in Hk as (y & -> & Hy).
  apply elem_of_List_filter in Hy as [Hy _].
  rewrite Forall_forall in Hx. apply Hx. now apply list_elem_of_fmap_2.
Qed.

Lemma StronglySorted_lookup_lt {A} (R : A -> A -> Prop) (i j : nat) (x y : A)
    (l : list A) :
  StronglySorted R l -> (i < j)%nat -> l !! i = Some x -> l !! j = Some y ->
  R x y.
Proof.
  intros Hsorted. revert i j.
  induction Hsorted as [|a l _ IH Hall]; intros i j Hij Hi Hj; [done|].
  destruct j as [|j]; [lia|]. simpl in Hj. destruct i as [|i].
  - injection Hi as ->. rewrite Forall_forall in Hall. apply Hall.
    now apply list_elem_of_lookup_2 in Hj.
  - simpl in Hi. apply (IH i j); [lia|done..].
Qed.

Section GroupingMore.

Context {HashPtr ExtHashPtr : Type}.
Variable Hash_Distance : HashPtr -> HashPtr -> Z * option error.
Variable ExtHash_Distance : ExtHashPtr -> ExtHashPtr -> Z * option error.
Variable threshold : Z.

Local Abbreviation ImageInfo := (@ImageInfo HashPtr ExtHashPtr).
Local Abbreviation similar := (similar Hash_Distance ExtHash_Distance threshold).
Local Abbreviation takes := (takes Hash_Distance ExtHash_Distance threshold).
Local Abbreviation collected := (collected Hash_Distance ExtHash_Distance threshold).
Local Abbreviation seeded := (seeded Hash_Distance ExtHash_Distance threshold).
Local Abbreviation seed_step := (seed_step Hash_Distance ExtHash_Distance threshold).
Local Abbreviation group_loop := (group_loop Hash_Distance ExtHash_Distance threshold).
Local Abbreviation findSimilarIndexed :=
  (findSimilarIndexed Hash_Distance ExtHash_Distance threshold).
Local Abbreviation findSimilarGroups :=
  (findSimilarGroups Hash_Distance ExtHash_Distance threshold).

(** X11. Within a returned group the members stand in input order: their
    positions increase strictly, the seed's first. *)
Theorem findSimilar_group_order (images : list ImageInfo) (m : nat)
    (g : list (nat * ImageInfo)) :
  findSimilarIndexed images !! m = Some g -> StronglySorted lt g.*1.
Proof.
  intros Hg.
  apply findSimilarIndexed_collected in Hg as (i & seed & Hi & -> & _).
  rewrite fmap_cons. apply StronglySorted_cons. split.
  - apply Forall_forall. intros k Hk.
    apply list_elem_of_fmap in Hk as ([j s] & -> & Hjs).
    now apply takes_spec in Hjs as (_ & Hlt & _).
  - apply List_filter_sorted_fst. rewrite range_indices. apply seq_sorted.
Qed.

(** What one turn of the outer loop does, given the invariant on entry. *)
Lemma seed_step_outcome (images : list ImageInfo) (n : nat) (img1 : ImageInfo)
    (groups : list (list (nat * ImageInfo))) (processed : gmap nat bool) :
  seeded images n (groups, processed) ->
  (n ∈ (concat groups).*1 /\
   (seed_step images (groups, processed) (n, img1)).1 = groups) \/
  ((n ∉ (concat groups).*1) /\
   let taken := List.filter (takes n img1 groups) (range images) in
   (seed_step images (groups, processed) (n, img1)).1
   = if decide (taken = []) then groups else groups ++ [(n, img1) :: taken]).
Proof.
  intros [Hmarks _ _]. simpl in Hmarks.
  destruct (processed_at processed n) eqn:Hn.
  - left. split.
    + apply Hmarks in Hn as [?|?]; [lia|done].
    + unfold seed_step. now rewrite Hn.
  - right. split.
    + intros Hin. assert (processed_at processed n = true) by (apply Hmarks; auto).
      congruence.
    + destruct (seed_step_fresh Hash_Distance ExtHash_Distance threshold
                  images groups processed n img1 Hn) as (processed' & -> & _).
      rewrite (joins_takes Hash_Distance ExtHash_Distance threshold
                 images n img1 groups processed Hmarks).
      simpl. now destruct (List.filter _ _) as [|jx taken].
Qed.

(** A property of the groups that every turn of the outer loop keeps holds of
    the groups that are returned. *)
Lemma group_loop_keeps (Q : nat -> list (list (nat * ImageInfo)) -> Prop)
    (images : list ImageInfo) :
  Q 0%nat [] ->
  (forall n img1 groups processed,
     seeded images n (groups, processed) -> images !! n = Some img1 ->
     Q n groups ->
     Q (S n) (seed_step images (groups, processed) (n, img1)).1) ->
  Q (length images) (findSimilarIndexed images).
Proof.
  intros Hinit Hstep.
  assert (forall pre suf, range images = pre ++ suf ->
            Q (length pre) (foldl (seed_step images) ([], ∅) pre).1) as Hpre.
  { induction pre as [|[i img1] pre IH] using rev_ind; intros suf Hrange; [done|].
    rewrite <- app_assoc in Hrange. simpl in Hrange.
    assert (range images !! length pre = Some (i, img1)) as Hi.
    { rewrite Hrange. now apply list_lookup_middle. }
    apply range_lookup in Hi as [-> Hi].
    rewrite foldl_app, length_app. simpl. rewrite Nat.add_1_r.
    pose proof (seeded_prefix Hash_Distance ExtHash_Distance threshold
                  images pre _ Hrange) as Hseeded.
    specialize (IH _ Hrange).
    destruct (foldl (seed_step images) ([], ∅) pre) as [groups processed].
    now apply Hstep. }
  specialize (Hpre (range images) [] (eq_sym (app_nil_r _))).
  unfold range at 1 in Hpre. now rewrite length_imap in Hpre.
Qed.

Lemma concat_positions_mono (groups : list (list (nat * ImageInfo)))
    (g : list (nat * ImageInfo)) (k : nat) :
  k ∈ (concat groups).*1 -> k ∈ (concat (groups ++ [g])).*1.
Proof.
  intros Hk. rewrite concat_app, fmap_app. apply elem_of_app. now left.
Qed.

Lemma group_loop_seed_order (images : list ImageInfo) :
  StronglySorted lt (seed_position <$> findSimilarIndexed images) /\
  Forall (fun g => (seed_position g < length images)%nat)
         (findSimilarIndexed images).
Proof.
  apply (group_loop_keeps
           (fun n groups =>
              StronglySorted lt (seed_position <$> groups) /\
              Forall (fun g => (seed_position g < n)%nat) groups)).
  - split; constructor.
  - intros n img1 groups processed Hseeded Himg [Hsorted Hbelow].
    assert (Forall (fun g => (seed_position g < S n)%nat) groups) as Hbelow'.
    { eapply Forall_impl; [exact Hbelow|]. simpl. intros; lia. }
    pose proof (seed_step_outcome images n img1 groups processed Hseeded) as Hout.
    destruct Hout as [[_ Heq]|[_ Heq]]; [now rewrite Heq|].
    cbv zeta in Heq. rewrite Heq.
    destruct (decide (List.filter (takes n img1 groups) (range images) = []));
      [done|].
    split.
    + rewrite fmap_app. apply StronglySorted_app_2.
      * intros k1 k2 Hk1 Hk2. apply list_elem_of_fmap in Hk1 as (g & -> & Hg).
        apply list_elem_of_singleton in Hk2 as ->. simpl.
        rewrite Forall_forall in Hbelow. now apply Hbelow.
      * done.
      * repeat constructor.
    + apply Forall_app. split; [done|]. constructor; [simpl; lia|constructor].
Qed.

(** X12. The groups are returned in the order of their seeds: the positions
    of the seeds increase strictly from one group to the next, and each is
    an index of the input. *)
Theorem findSimilar_seed_order (images : list ImageInfo) (m1 m2 : nat)
    (g1 g2 : list (nat * ImageInfo)) :
  (m1 < m2)%nat ->
  findSimilarIndexed images !! m1 = Some g1 ->
  findSimilarIndexed images !! m2 = Some g2 ->
  (seed_position g1 < seed_position g2 < length images)%nat.
Proof.
  intros Hm Hg1 Hg2.
  destruct (group_loop_seed_order images) as [Hsorted Hbelow]. split.
  - apply (StronglySorted_lookup_lt _ m1 m2 _ _ _ Hsorted); [done| |].
    + now rewrite list_lookup_fmap, Hg1.
    + now rewrite list_lookup_fmap, Hg2.
  - rewrite Forall_lookup in Hbelow. exact (Hbelow m2 g2 Hg2).
Qed.

Lemma earlier_groups_apart (groups : list (list (nat * ImageInfo))) (m : nat)
    (g : list (nat * ImageInfo)) (k : nat) :
  NoDup (concat groups).*1 -> groups !! m = Some g -> k ∈ g.*1 ->
  k ∉ (concat (take m groups)).*1.
Proof.
  intros Hnd Hg Hk Hearlier.
  rewrite <- (take_drop_middle groups m g Hg) in Hnd.
  rewrite concat_app, fmap_app in Hnd. apply NoDup_app in Hnd as (_ & Hapart & _).
  apply (Hapart k Hearlier). simpl. rewrite fmap_app. apply elem_of_app. now left.
Qed.

Lemma earlier_group_positions (groups : list (list (nat * ImageInfo)))
    (m1 m2 : nat) (g1 : list (nat * ImageInfo)) (k : nat) :
  (m1 < m2)%nat -> groups !! m1 = Some g1 ->
  k ∈ g1.*1 \/ k ∈ (concat (take m1 groups)).*1 ->
  k ∈ (concat (take m2 groups)).*1.
Proof.
  intros Hm Hg1 Hk.
  assert (take m2 groups !! m1 = Some g1) as Hg1' by now rewrite lookup_take_lt.
  rewrite <- (take_drop_middle _ _ _ Hg1').
  rewrite take_take, Nat.min_l by lia.
  rewrite concat_app, fmap_app. simpl. rewrite fmap_app, !elem_of_app. tauto.
Qed.

(** X18. A record goes to the first seed that can take it: no member of a
    returned group is similar to the seed of a group returned before it. *)
Theorem findSimilar_first_fit (images : list ImageInfo) (m1 m2 i1 j : nat)
    (seed1 b : ImageInfo) (rest1 g2 : list (nat * ImageInfo)) :
  (m1 < m2)%nat ->
  findSimilarIndexed images !! m1 = Some ((i1, seed1) :: rest1) ->
  findSimilarIndexed images !! m2 = Some g2 ->
  (j, b) ∈ g2 ->
  ~ similar seed1 b.
Proof.
  intros Hm Hg1 Hg2 Hjb Hsim.
  destruct (group_loop_seeded Hash_Distance ExtHash_Distance threshold images)
    as [_ _ Hnd].
  change (NoDup (concat (findSimilarIndexed images)).*1) in Hnd.
  assert (j ∉ (concat (take m2 (findSimilarIndexed images))).*1) as Hfree.
  { apply (earlier_groups_apart _ m2 g2); [done..|].
    now apply (list_elem_of_fmap_2 fst) in Hjb. }
  assert (images !! j = Some b /\ (seed_position g2 <= j)%nat) as [Hj Hle].
  { pose proof Hg2 as Hc.
    apply findSimilarIndexed_collected in Hc as (i2 & seed2 & Hi2 & -> & _).
    simpl. apply elem_of_cons in Hjb as [[= -> ->]|Hjb]; [done|].
    apply takes_spec in Hjb as (Hj & Hlt & _). split; [done|lia]. }
  assert (i1 < j)%nat as Hlt.
  { destruct (group_loop_seed_order images) as [Hsorted _].
    enough (seed_position ((i1, seed1) :: rest1) < seed_position g2)%nat
      by (simpl in *; lia).
    apply (StronglySorted_lookup_lt _ m1 m2 _ _ _ Hsorted); [done| |].
    - now rewrite list_lookup_fmap, Hg1.
    - now rewrite list_lookup_fmap, Hg2. }
  apply Hfree. apply (earlier_group_positions _ m1 m2 _ j Hm Hg1). left.
  pose proof Hg1 as Hc.
  apply findSimilarIndexed_collected in Hc as (i & seed & Hi & Heq & _).
  injection Heq as -> -> ->. rewrite fmap_cons. apply elem_of_cons. right.
  change j with (fst (j, b)) at 1. apply list_elem_of_fmap_2. apply takes_spec.
  destruct Hsim as [Hkind Hdist]. repeat split; try done.
  intros Hin. apply Hfree.
  apply (earlier_group_positions _ m1 m2 _ j Hm Hg1). now right.
Qed.

(** X13. A pair of similar records is never lost altogether: when a record
    is similar to a later one, taking the earlier as the seed, at least one of
    the two is a member of a returned group. *)
Theorem findSimilar_pair_kept (images : list ImageInfo) (i j : nat)
    (a b : ImageInfo) :
  (i < j)%nat -> images !! i = Some a -> images !! j = Some b -> similar a b ->
  let positions := (concat (findSimilarIndexed images)).*1 in
  i ∈ positions \/ j ∈ positions.
Proof.
  intros Hij Hi Hj Hsim positions.
  apply (group_loop_keeps
           (fun n groups =>
              forall i j a b, (i < n)%nat -> (i < j)%nat ->
                images !! i = Some a -> images !! j = Some b -> similar a b ->
                i ∈ (concat groups).*1 \/ j ∈ (concat groups).*1) images)
    with (a := a) (b := b); try done.
  - intros i' j' a' b' Hlt. lia.
  - clear. intros n img1 groups processed Hseeded Himg IH i j a b Hin Hij Hi Hj Hsim.
    pose proof (seed_step_outcome images n img1 groups processed Hseeded) as Hout.
    destruct Hout as [[Hn Heq]|[Hn Heq]].
    { rewrite Heq. destruct (decide (i = n)) as [->|]; [by left|].
      apply (IH i j a b); [lia|done..]. }
    cbv zeta in Heq. rewrite Heq. clear Heq.
    assert (i ∈ (concat groups).*1 \/ j ∈ (concat groups).*1 \/
            (i = n /\ j ∉ (concat groups).*1)) as Hcases.
    { destruct (decide (i = n)) as [->|].
      - destruct (decide (j ∈ (concat groups).*1)); [tauto|]. right. right. done.
      - destruct (IH i j a b); [lia|done..|tauto|tauto]. }
    destruct (decide (List.filter (takes n img1 groups) (range images) = []))
      as [Hnil|Hsome].
    + destruct Hcases as [?|[?|[-> Hfree]]]; [tauto|tauto|]. exfalso.
      assert ((j, b) ∈ List.filter (takes n img1 groups) (range images)) as Hjb.
      { apply takes_spec. rewrite Himg in Hi. injection Hi as ->. done. }
      rewrite Hnil in Hjb. now apply not_elem_of_nil in Hjb.
    + destruct Hcases as [?|[?|[-> Hfree]]].
      * left. now apply concat_positions_mono.
      * right. now apply concat_positions_mono.
      * left. rewrite concat_app, fmap_app. apply elem_of_app. right.
        simpl. rewrite app_nil_r. apply list_elem_of_here.
  - now apply lookup_lt_Some in Hi.
Qed.

Lemma elem_of_concat {A} (x : A) (ls : list (list A)) :
  x ∈ concat ls -> exists l, l ∈ ls /\ x ∈ l.
Proof.
  induction ls as [|l ls IH]; simpl.
  - intros H. now apply not_elem_of_nil in H.
  - rewrite elem_of_app. intros [Hx|Hx].
    + exists l. split; [apply list_elem_of_here|done].
    + destruct (IH Hx) as (l' & Hl' & Hx'). exists l'.
      split; [now apply list_elem_of_further|done].
Qed.

Lemma concat_length_pairs {A} (groups : list (list A)) :
  Forall (fun g => (1 < length g)%nat) groups ->
  (2 * length groups <= length (concat groups))%nat.
Proof.
  induction 1 as [|g groups Hg _ IH]; simpl; [lia|].
  rewrite length_app. lia.
Qed.

(** X14. Each returned group pairs at least two of the input records and no
    record is counted twice, so the groups hold at most as many members as
    there are records and there are at most half as many groups. *)
Theorem findSimilarGroups_count (images : list ImageInfo) :
  (2 * length (findSimilarGroups images)
   <= length (concat (findSimilarGroups images)))%nat /\
  (length (concat (findSimilarGroups images)) <= length images)%nat.
Proof.
  assert (Forall (fun g => (1 < length g)%nat) (findSimilarGroups images)) as Hpairs.
  { unfold findSimilarGroups. apply Forall_fmap, Forall_lookup. intros m g Hg. simpl.
    apply findSimilarIndexed_collected in Hg as (i & seed & _ & _ & Hlen).
    now rewrite length_map. }
  split; [now apply concat_length_pairs|].
  assert (length (concat (findSimilarGroups images))
          = length (concat (findSimilarIndexed images)).*1) as ->.
  { unfold findSimilarGroups. rewrite length_fmap.
    induction (findSimilarIndexed images) as [|g gs IH]; simpl; [done|].
    now rewrite !length_app, length_map, IH. }
  rewrite <- (length_seq (length images) 0). apply submseteq_length.
  apply NoDup_submseteq.
  { now destruct (group_loop_seeded Hash_Distance ExtHash_Distance threshold images)
      as [_ _ Hnd]. }
  intros k Hk. apply elem_of_seq.
  apply list_elem_of_fmap in Hk as ([j s] & -> & Hjs).
  apply elem_of_concat in Hjs as (g & Hg & Hjs).
  apply list_elem_of_lookup in Hg as [m Hg].
  apply findSimilarIndexed_collected in Hg as (i & seed & Hi & -> & _).
  simpl. apply elem_of_cons in Hjs as [[= -> ->]|Hjs].
  - apply lookup_lt_Some in Hi. lia.
  - apply takes_spec in Hjs as (Hj & _). apply lookup_lt_Some in Hj. lia.
Qed.

End GroupingMore.

Lemma findSimilar_group_order_witness :
  StronglySorted lt [(1%nat, X8); (3%nat, Y8)].*1.
Proof.
  apply (findSimilar_group_order Hamming8 Hamming8 3 [A8; X8; B8; Y8] 1).
  vm_compute. reflexivity.
Defined.

Lemma findSimilar_seed_order_witness :
  (seed_position [(0%nat, A8); (2%nat, B8)]
   < seed_position [(1%nat, X8); (3%nat, Y8)]
   < length [A8; X8; B8; Y8])%nat.
Proof.
  apply (findSimilar_seed_order Hamming8 Hamming8 3 [A8; X8; B8; Y8] 0 1).
  - lia.
  - reflexivity.
  - reflexivity.
Defined.

Lemma findSimilar_first_fit_witness :
  ~ similar Hamming8 Hamming8 3 A8 Y8.
Proof.
  apply (findSimilar_first_fit Hamming8 Hamming8 3 [A8; X8; B8; Y8] 0 1 0 3
           A8 Y8 [(2%nat, B8)] [(1%nat, X8); (3%nat, Y8)]).
  - lia.
  - reflexivity.
  - reflexivity.
  - set_solver.
Defined.

Lemma findSimilar_pair_kept_witness :
  let positions :=
    (concat (findSimilarIndexed Hamming8 Hamming8 3 [A8; B8; C8])).*1 in
  1%nat ∈ positions \/ 2%nat ∈ positions.
Proof.
  apply (findSimilar_pair_kept Hamming8 Hamming8 3 [A8; B8; C8] 1 2 B8 C8).
  - lia.
  - reflexivity.
  - reflexivity.
  - split; [reflexivity|]. exists 3. split; [reflexivity|lia].
Defined.

(** ** The batch command from the file list *)

Lemma findSimilarIndexed_member {HashPtr ExtHashPtr : Type}
    (Hash_Distance : HashPtr -> HashPtr -> Z * option error)
    (ExtHash_Distance : ExtHashPtr -> ExtHashPtr -> Z * option error)
    (threshold : Z) (images : list (@ImageInfo HashPtr ExtHashPtr))
    (j : nat) (s : @ImageInfo HashPtr ExtHashPtr) :
  (j, s) ∈ concat (findSimilarIndexed Hash_Distance ExtHash_Distance threshold images) ->
  images !! j = Some s.
Proof.
  intros Hjs. apply elem_of_concat in Hjs as (g & Hg & Hjs).
  apply list_elem_of_lookup in Hg as [m Hg].
  apply findSimilarIndexed_collected in Hg as (i & seed & Hi & -> & _).
  apply elem_of_cons in Hjs as [[= -> ->]|Hjs]; [done|].
  now apply takes_spec in Hjs as (Hj & _).
Qed.

Lemma concat_records {A B} (groups : list (list (A * B))) :
  concat (map (map snd) groups) = (concat groups).*2.
Proof.
  induction groups as [|g groups IH]; simpl; [done|].
  now rewrite fmap_app, IH.
Qed.

Lemma findSimilarGroups_paths {HashPtr ExtHashPtr : Type}
    (Hash_Distance : HashPtr -> HashPtr -> Z * option error)
    (ExtHash_Distance : ExtHashPtr -> ExtHashPtr -> Z * option error)
    (threshold : Z) (images : list (@ImageInfo HashPtr ExtHashPtr)) :
  NoDup (Path <$> images) ->
  NoDup (Path <$> concat
           (findSimilarGroups Hash_Distance ExtHash_Distance threshold images)) /\
  Forall (fun path => path ∈ Path <$> images)
         (Path <$> concat
            (findSimilarGroups Hash_Distance ExtHash_Distance threshold images)).
Proof.
  intros Hpaths. unfold findSimilarGroups. rewrite concat_records.
  set (members := concat (findSimilarIndexed _ _ _ images)).
  assert (forall j s, (j, s) ∈ members -> images !! j = Some s) as Hvalid.
  { intros j s. apply findSimilarIndexed_member. }
  split.
  - rewrite <- list_fmap_compose. apply NoDup_fmap_2_strong.
    + intros [j1 s1] [j2 s2] H1 H2 Heq. simpl in Heq.
      pose proof (Hvalid _ _ H1) as Hs1. pose proof (Hvalid _ _ H2) as Hs2.
      assert (j1 = j2) as ->.
      { apply (NoDup_lookup _ _ _ (Path s1) Hpaths).
        - now rewrite list_lookup_fmap, Hs1.
        - now rewrite list_lookup_fmap, Hs2, Heq. }
      congruence.
    + apply (NoDup_fmap_1 fst).
      now destruct (group_loop_seeded Hash_Distance ExtHash_Distance threshold images)
        as [_ _ Hnd].
  - apply Forall_forall. intros path Hpath.
    apply list_elem_of_fmap in Hpath as (s & -> & Hs).
    apply list_elem_of_fmap in Hs as ([j s'] & -> & Hjs). simpl.
    apply list_elem_of_fmap_2. apply Hvalid in Hjs.
    now apply list_elem_of_lookup_2 in Hjs.
Qed.

Section BatchFacts.

Context {Image Color : Type} `{!Imaging Image Color} {ImageHash : Type}.
Variable loadImage : string -> Image + error.
Variable AverageHash : Image -> option ImageHash * option error.
Variable DifferenceHash : Image -> option ImageHash * option error.
Variable PerceptionHash : Image -> option ImageHash * option error.
Variable Hash_Distance :
  option ImageHash -> option ImageHash -> Z * option error.
Variable ExtHash_Distance :
  option ExtImageHash -> option ExtImageHash -> Z * option error.
Variable hashType : string.
Variable threshold : Z.

Local Abbreviation record := (@ImageInfo (option ImageHash) (option ExtImageHash)).
Local Abbreviation computeHash :=
  (computeHash AverageHash DifferenceHash PerceptionHash hashType).
Local Abbreviation collect_step :=
  (collect_step loadImage AverageHash DifferenceHash PerceptionHash hashType).
Local Abbreviation collectImages :=
  (collectImages loadImage AverageHash DifferenceHash PerceptionHash hashType).
Local Abbreviation findSimilarImages :=
  (findSimilarImages loadImage AverageHash DifferenceHash PerceptionHash
     Hash_Distance ExtHash_Distance hashType threshold).
Local Abbreviation hashes :=
  (hashes loadImage AverageHash DifferenceHash PerceptionHash hashType).
Local Abbreviation built := (@built ImageHash hashType).

Lemma collect_step_outcome (images : list record) (imagePath : string) :
  exists added,
    collect_step images imagePath = Some (images ++ added) /\
    Path <$> added = (if hashes imagePath then [imagePath] else []) /\
    Forall built added.
Proof.
  unfold collect_step, hashes, built.
  destruct (loadImage imagePath) as [img|e].
  2:{ exists []. rewrite app_nil_r. repeat split; constructor. }
  destruct (decide (hashType ∈ ["double-gradient"; "dgrad"])) as [Hdg|Hdg].
  - destruct (DoubleGradientHash_returns img 8 8 ltac:(lia) ltac:(lia)
                ltac:(vm_compute; discriminate)) as [g ->].
    simpl. eexists [_]. split; [done|].
    rewrite !bool_decide_eq_true_2 by done. split; [done|].
    constructor; [|constructor]. done.
  - rewrite !(bool_decide_eq_false_2 _ Hdg). simpl.
    destruct (computeHash img) as [hash [e|]]; simpl.
    + exists []. rewrite app_nil_r. repeat split; constructor.
    + eexists [_]. split; [done|].
      split; [done|]. constructor; [|constructor]. done.
Qed.

Lemma each_collect (imageFiles : list string) (images : list record) :
  exists added,
    each collect_step images imageFiles = Some (images ++ added) /\
    Path <$> added = List.filter hashes imageFiles /\
    Forall built added.
Proof.
  revert images. induction imageFiles as [|imagePath rest IH]; intros images.
  - exists []. rewrite app_nil_r. repeat split; constructor.
  - cbn [each List.filter].
    destruct (collect_step_outcome images imagePath) as (added & -> & Hpath & Hbuilt).
    destruct (IH (images ++ added)) as (more & -> & Hmore & Hbuilt').
    exists (added ++ more). rewrite app_assoc. split; [done|]. split.
    + rewrite fmap_app, Hpath, Hmore. now destruct (hashes imagePath).
    + now apply Forall_app.
Qed.

(** X15. The loop of [findSimilarImages] that hashes the files does not
    panic and keeps, in their order, exactly the files that load and hash
    without an error; every record it builds is of the same kind, extended
    exactly when the hash type is [double-gradient] or [dgrad]. *)
Theorem collectImages_kept (imageFiles : list string) :
  exists images,
    collectImages imageFiles = Some images /\
    Path <$> images = List.filter hashes imageFiles /\
    Forall built images.
Proof.
  destruct (each_collect imageFiles []) as (images & Hrun & Hpaths & Hbuilt).
  exists images. done.
Qed.

(** X16. With a hash type that is none of [average], [ahash], [difference],
    [dhash], [perception], [phash], [double-gradient] and [dgrad], [wavelet]
    for one, every file is skipped: [findSimilarImages] reports no group,
    and it does so without an error. *)
Theorem findSimilarImages_unsupported (imageFiles : list string) :
  hashType ∉ ["average"; "ahash"; "difference"; "dhash"; "perception"; "phash";
              "double-gradient"; "dgrad"] ->
  collectImages imageFiles = Some [] /\ findSimilarImages imageFiles = Some [].
Proof.
  intros Hnone.
  assert (forall imagePath, hashes imagePath = false) as Hskip.
  { intros imagePath. unfold hashes, computeHash.
    destruct (loadImage imagePath) as [img|e]; [|done].
    rewrite bool_decide_eq_false_2 by set_solver.
    rewrite !decide_False by set_solver. done. }
  destruct (each_collect imageFiles []) as (images & Hrun & Hpaths & _).
  change (collectImages imageFiles = Some images) in Hrun.
  assert (images = []) as ->.
  { apply fmap_nil_inv with (f := Path). rewrite Hpaths. clear Hrun Hpaths.
    induction imageFiles as [|imagePath rest IH]; [done|].
    cbn [List.filter]. now rewrite Hskip. }
  split; [done|]. unfold findSimilarImages. now rewrite Hrun.
Qed.

(** X17. When the files given are distinct, no file is reported twice: the
    paths of the members of all the groups that [findSimilarImages] reports
    are pairwise distinct, and each is one of the files given. *)
Theorem findSimilarImages_paths (imageFiles : list string) :
  NoDup imageFiles ->
  exists groups,
    findSimilarImages imageFiles = Some groups /\
    NoDup (Path <$> concat groups) /\
    Forall (fun path => path ∈ imageFiles) (Path <$> concat groups).
Proof.
  intros Hfiles.
  destruct (each_collect imageFiles []) as (images & Hrun & Hpaths & _).
  change (collectImages imageFiles = Some images) in Hrun.
  unfold findSimilarImages. rewrite Hrun. simpl. eexists. split; [done|].
  assert (NoDup (Path <$> images)) as Hnd.
  { rewrite Hpaths. clear -Hfiles.
    induction Hfiles as [|imagePath rest Hnew _ IH]; [constructor|].
    cbn [List.filter]. destruct (hashes imagePath); [|done].
    constructor; [|done]. rewrite list_elem_of_In, filter_In, <- list_elem_of_In.
    tauto. }
  destruct (findSimilarGroups_paths Hash_Distance ExtHash_Distance threshold
              images Hnd) as [Hdistinct Hamong].
  split; [done|]. eapply Forall_impl; [exact Hamong|]. simpl.
  intros path. rewrite Hpaths, list_elem_of_In, filter_In, <- list_elem_of_In.
  tauto.
Qed.

End BatchFacts.

Lemma findSimilarImages_unsupported_witness :
  let loadImage : string -> raster + error := fun _ => inl ramp_image in
  let hash : raster -> option Z * option error := fun _ => (Some 0, None) in
  collectImages loadImage hash hash hash "wavelet" ["a.png"; "b.png"] = Some [] /\
  findSimilarImages loadImage hash hash hash (fun _ _ => (0, None)) (fun _ _ => (0, None)) "wavelet" 10
    ["a.png"; "b.png"] = Some [].
Proof.
  apply findSimilarImages_unsupported. set_solver.
Defined.

Lemma findSimilarImages_paths_witness :
  let loadImage : string -> raster + error :=
    fun path => if decide (path = "notes.txt")
                then inr "failed to decode image" else inl ramp_image in
  let hash : raster -> option Z * option error := fun _ => (Some 0, None) in
  exists groups,
    findSimilarImages loadImage hash hash hash (fun _ _ => (0, None)) (fun _ _ => (0, None)) "dgrad" 10
      ["a.png"; "notes.txt"; "b.png"] = Some groups /\
    NoDup (Path <$> concat groups) /\
    Forall (fun path => path ∈ ["a.png"; "notes.txt"; "b.png"])
      (Path <$> concat groups).
Proof.
  apply findSimilarImages_paths.
  apply (bool_decide_unpack _). vm_compute. exact I.
Defined.
